(** * jsre: the JavaScript runtime environment around the otto interpreter

    A shallow embedding of package jsre: the timer builtins installed by
    runEventLoop (newTimer, setTimeout, setInterval, clearTimeout), the three
    branches of the event loop's select, the cleanup on loop exit, the
    callers do and Stop, and the native bindings readFile, writeFile and
    shellExec.

    The otto interpreter, the Go runtime timers, the file system and the
    shell are outside the package.  They appear here as follows:
    - script values are an inductive type; the interpreter's conversions
      ToInteger and ToString are the fields of the class [Otto];
    - a time.Timer is one of three states (armed, its function blocked on
      the send to the ready channel, inactive);
    - what a piece of script does while the interpreter runs it is given
      with the event that starts it, as the list of timer builtins it calls;
    - the disk is a finite map from paths to contents, and a command is
      described by the process it starts. *)

From stdpp Require Import base numbers option list gmap sets strings pretty.

(** ** Script values and calls *)

(** A *jsTimer: timers live behind pointers, handles stand for them. *)
Definition handle := nat.

(** otto.Value. [Timer t] is the Go pointer t wrapped by ToValue; [Object]
    is an object whose properties hold strings. *)
Inductive Value :=
| Undefined
| Boolean (b : bool)
| Number (n : Z)
| Text (s : string)
| Function (name : string)
| Timer (t : handle)
| Object (fields : list (string * string)).

#[global] Instance Value_eq_dec : EqDecision Value.
Proof. solve_decision. Defined.

Definition TrueValue : Value := Boolean true.
Definition FalseValue : Value := Boolean false.
Definition UndefinedValue : Value := Undefined.

(** The interpreter's conversions. ToInteger yields an int64 and the
    callers here drop its error; ToString is None when it raises. *)
Class Otto := {
  ToInteger : Value -> Z;
  ToString : Value -> option string
}.

(** Value.Export followed by the type assertion to *jsTimer. *)
Definition as_jsTimer (v : Value) : option handle :=
  match v with
  | Timer t => Some t
  | _ => None
  end.

(** otto.FunctionCall, of which the runtime reads the argument list. *)
Record FunctionCall := { ArgumentList : list Value }.

#[global] Instance FunctionCall_eq_dec : EqDecision FunctionCall.
Proof. solve_decision. Defined.

(** call.Argument(i): the i-th argument, undefined when out of range. *)
Definition Argument (call : FunctionCall) (i : nat) : Value :=
  default UndefinedValue (ArgumentList call !! i).

(** ** Durations *)

(** Two's complement wrap-around of int64 arithmetic. *)
Definition int64 (z : Z) : Z := ((z + 2 ^ 63) mod 2 ^ 64 - 2 ^ 63)%Z.

(** time.Millisecond, in nanoseconds. *)
Definition Millisecond : Z := 1000000%Z.

(** time.Duration(delay) * time.Millisecond *)
Definition milliseconds (delay : Z) : Z := int64 (delay * Millisecond).

(** ** Timers *)

(** A time.Timer made by time.AfterFunc(d, func() { ready <- timer }). *)
Inductive time_Timer :=
| Pending (d : Z)   (* armed: its function starts once d has elapsed *)
| Sending           (* its function has started and blocks on ready <- timer *)
| Inactive.         (* stopped, or expired with its notification received *)

#[global] Instance time_Timer_eq_dec : EqDecision time_Timer.
Proof. solve_decision. Defined.

(** timer.Stop(): disarms an armed timer; a function that has already
    started is not taken back. *)
Definition Stop_timer (t : time_Timer) : time_Timer :=
  match t with
  | Pending _ => Inactive
  | Sending => Sending
  | Inactive => Inactive
  end.

(** timer.Reset(d) *)
Definition Reset_timer (d : Z) (t : time_Timer) : time_Timer := Pending d.

Record jsTimer := {
  timer : time_Timer;
  duration : Z;
  interval : bool;
  call : FunctionCall
}.

#[global] Instance jsTimer_eq_dec : EqDecision jsTimer.
Proof. solve_decision. Defined.

Definition with_timer (f : time_Timer -> time_Timer) (t : jsTimer) : jsTimer :=
  {| timer := f (timer t); duration := duration t;
     interval := interval t; call := call t |}.

(** ** The state of a runtime *)

Inductive status :=
| Running     (* inside the for/select loop *)
| Exited      (* past loopWg.Done() *)
| Panicked.   (* the loop goroutine panicked *)

(** Where a host thread stands inside do or Stop. *)
Inductive thread :=
| DoSend                  (* do: blocked on self.evalQueue <- req *)
| DoWait                  (* do: blocked on <-done *)
| StopSend (drain : bool) (* Stop: blocked on self.stopEventLoop <- drain *)
| StopWait                (* Stop: blocked on self.loopWg.Wait() *)
| DoReturned              (* do has returned *)
| StopReturned.           (* Stop has returned *)

(** What the loop does that is visible from outside. *)
Inductive output :=
| Call (t : handle) (arguments : list (option Value))
    (* vm.Call(`Function.call.call`, nil, arguments...) for timer t *)
| Println (err : string) (arguments : list (option Value))
    (* fmt.Println("js error:", err, arguments) *)
| Run (r : nat)      (* req.fn(vm) of request r *)
| Close (r : nat).   (* close(req.done) of request r *)

#[global] Instance status_eq_dec : EqDecision status.
Proof. solve_decision. Defined.
#[global] Instance thread_eq_dec : EqDecision thread.
Proof. solve_decision. Defined.
#[global] Instance output_eq_dec : EqDecision output.
Proof. solve_decision. Defined.

(** [heap] holds every jsTimer allocated so far; [registry] is the map
    registry of runEventLoop, whose keys are their own values, hence a set
    of pointers. *)
Record JSRE := {
  heap : gmap handle jsTimer;
  registry : gset handle;
  waitForCallbacks : bool;
  loop : status;
  threads : gmap nat thread;
  trace : list output
}.

(** New(assetPath), at the moment the loop goroutine starts. *)
Definition New : JSRE :=
  {| heap := ∅; registry := ∅; waitForCallbacks := false;
     loop := Running; threads := ∅; trace := [] |}.

Definition set_heap (f : gmap handle jsTimer -> gmap handle jsTimer) (re : JSRE) : JSRE :=
  {| heap := f (heap re); registry := registry re;
     waitForCallbacks := waitForCallbacks re; loop := loop re;
     threads := threads re; trace := trace re |}.

Definition set_registry (f : gset handle -> gset handle) (re : JSRE) : JSRE :=
  {| heap := heap re; registry := f (registry re);
     waitForCallbacks := waitForCallbacks re; loop := loop re;
     threads := threads re; trace := trace re |}.

Definition set_waitForCallbacks (b : bool) (re : JSRE) : JSRE :=
  {| heap := heap re; registry := registry re;
     waitForCallbacks := b; loop := loop re;
     threads := threads re; trace := trace re |}.

Definition set_loop (s : status) (re : JSRE) : JSRE :=
  {| heap := heap re; registry := registry re;
     waitForCallbacks := waitForCallbacks re; loop := s;
     threads := threads re; trace := trace re |}.

Definition set_thread (i : nat) (th : thread) (re : JSRE) : JSRE :=
  {| heap := heap re; registry := registry re;
     waitForCallbacks := waitForCallbacks re; loop := loop re;
     threads := <[i := th]> (threads re); trace := trace re |}.

Definition emit (o : output) (re : JSRE) : JSRE :=
  {| heap := heap re; registry := registry re;
     waitForCallbacks := waitForCallbacks re; loop := loop re;
     threads := threads re; trace := trace re ++ [o] |}.

(** ** The timer builtins of runEventLoop *)

Section Builtins.
Context `{vm : Otto}.

(** newTimer: the delay is argument 1 read as an integer, raised to 1
    when it is not positive; the timer enters the registry and is armed
    with time.AfterFunc. Returns the new pointer and its script value. *)
Definition newTimer (call : FunctionCall) (interval : bool) (re : JSRE)
  : handle * Value * JSRE :=
  let delay := ToInteger (Argument call 1) in
  let delay := if decide (0 >= delay)%Z then 1%Z else delay in
  let d := milliseconds delay in
  let t : handle := fresh (dom (heap re)) in
  let tm := {| timer := Pending d; duration := d;
               interval := interval; call := call |} in
  (t, Timer t, set_registry (union {[t]}) (set_heap <[t := tm]> re)).

Definition setTimeout (call : FunctionCall) (re : JSRE) : Value * JSRE :=
  let '(_, value, re) := newTimer call false re in (value, re).

Definition setInterval (call : FunctionCall) (re : JSRE) : Value * JSRE :=
  let '(_, value, re) := newTimer call true re in (value, re).

(** clearTimeout, also installed as clearInterval. *)
Definition clearTimeout (call : FunctionCall) (re : JSRE) : Value * JSRE :=
  match as_jsTimer (Argument call 0) with
  | Some t =>
      (UndefinedValue,
       set_registry (fun r => r ∖ {[t]}) (set_heap (alter (with_timer Stop_timer) t) re))
  | None => (UndefinedValue, re)
  end.

(** A call from script to one of the builtins set on the vm. *)
Inductive builtin :=
| SetTimeout (call : FunctionCall)
| SetInterval (call : FunctionCall)
| ClearTimeout (call : FunctionCall).

Definition run_builtin (b : builtin) (re : JSRE) : JSRE :=
  match b with
  | SetTimeout call => snd (setTimeout call re)
  | SetInterval call => snd (setInterval call re)
  | ClearTimeout call => snd (clearTimeout call re)
  end.

(** The builtins a piece of script calls, in order. *)
Definition run_script (js : list builtin) (re : JSRE) : JSRE :=
  foldl (fun re b => run_builtin b re) re js.

(** ** The event loop *)

(** The argument slice of the timer branch: None stands for a nil entry;
    the result is None when indexing ArgumentList[0] panics. *)
Definition build_arguments (call : FunctionCall) : option (list (option Value)) :=
  let arguments :=
    if decide (2 < length (ArgumentList call)) then
      let tmp := drop 2 (ArgumentList call) in
      foldl (fun arguments '(i, value) => <[i + 2 := Some value]> arguments)
            (replicate (2 + length tmp) None) (imap pair tmp)
    else replicate 1 None in
  match ArgumentList call with
  | [] => None
  | callback :: _ => Some (<[0 := Some callback]> arguments)
  end.

(** The code after the loop: every timer left in the registry is stopped
    and deleted, then loopWg.Done(). *)
Definition exit_loop (re : JSRE) : JSRE :=
  set_loop Exited
    (set_registry (fun _ => ∅)
       (set_heap (fun h => foldr (alter (with_timer Stop_timer)) h (elements (registry re))) re)).

(** if waitForCallbacks && (len(registry) == 0) { break loop } *)
Definition break_if_drained (re : JSRE) : JSRE :=
  if waitForCallbacks re && bool_decide (size (registry re) = 0)
  then exit_loop re else re.

(** The callback of timer t invoked with [arguments]: [js] is what the
    callback does and [err] what vm.Call returns for it; an error is
    printed. *)
Definition invoke (t : handle) (arguments : list (option Value))
    (js : list builtin) (err : option string) (re : JSRE) : JSRE :=
  let re := run_script js (emit (Call t arguments) re) in
  match err with
  | Some e => emit (Println e arguments) re
  | None => re
  end.

(** case timer := <-ready. The fields call, interval and duration of a
    jsTimer are set once by newTimer, so that they are read here in one go. *)
Definition on_ready (t : handle) (js : list builtin) (err : option string)
    (re : JSRE) : option JSRE :=
  tm ← heap re !! t;
  Some
    match build_arguments (call tm) with
    | None => set_loop Panicked re
    | Some arguments =>
        let re := invoke t arguments js err re in
        if interval tm then
          set_heap (alter (with_timer (Reset_timer (duration tm))) t) re
        else
          break_if_drained (set_registry (fun r => r ∖ {[t]}) re)
    end.

(** case req := <-self.evalQueue. [js] is what req.fn does with the vm. *)
Definition on_request (r : nat) (js : list builtin) (re : JSRE) : JSRE :=
  let re := run_script js (emit (Run r) re) in
  let re := emit (Close r) re in
  break_if_drained re.

(** case waitForCallbacks = <-self.stopEventLoop *)
Definition on_stop (drain : bool) (re : JSRE) : JSRE :=
  let re := set_waitForCallbacks drain re in
  if negb (waitForCallbacks re) || bool_decide (size (registry re) = 0)
  then exit_loop re else re.

(** ** Events

    The loop goroutine, the runtime timers and the host threads move in
    turns. An event that cannot happen in a state yields None. *)
Inductive event :=
| Expire (t : handle)
    (* the duration of t elapses: its function starts and blocks *)
| Ready (t : handle) (js : list builtin) (err : option string)
    (* the select receives t from ready *)
| CallDo (i : nat)
    (* thread i enters do(fn) and offers its request *)
| Request (i : nat) (js : list builtin)
    (* the select receives the request of thread i *)
| CallStop (i : nat) (drain : bool)
    (* thread i enters Stop(drain) and offers the flag *)
| StopSignal (i : nat)
    (* the select receives the flag of thread i *)
| Return (i : nat).
    (* thread i gets past its last blocking point and returns *)

Definition closed (r : nat) (re : JSRE) : bool :=
  bool_decide (Close r ∈ trace re).

Definition step (e : event) (re : JSRE) : option JSRE :=
  match loop re with
  | Panicked => None
  | l =>
    match e with
    | Expire t =>
        tm ← heap re !! t;
        match timer tm with
        | Pending _ => Some (set_heap (alter (with_timer (fun _ => Sending)) t) re)
        | _ => None
        end
    | Ready t js err =>
        tm ← heap re !! t;
        match l, timer tm with
        | Running, Sending =>
            on_ready t js err (set_heap (alter (with_timer (fun _ => Inactive)) t) re)
        | _, _ => None
        end
    | CallDo i =>
        match threads re !! i with
        | None => Some (set_thread i DoSend re)
        | Some _ => None
        end
    | Request i js =>
        match l, threads re !! i with
        | Running, Some DoSend => Some (on_request i js (set_thread i DoWait re))
        | _, _ => None
        end
    | CallStop i drain =>
        match threads re !! i with
        | None => Some (set_thread i (StopSend drain) re)
        | Some _ => None
        end
    | StopSignal i =>
        match l, threads re !! i with
        | Running, Some (StopSend drain) => Some (on_stop drain (set_thread i StopWait re))
        | _, _ => None
        end
    | Return i =>
        match threads re !! i with
        | Some DoWait =>
            if closed i re then Some (set_thread i DoReturned re) else None
        | Some StopWait =>
            if decide (l = Exited) then Some (set_thread i StopReturned re) else None
        | _ => None
        end
    end
  end.

(** A run: the events in turn, None as soon as one cannot happen. *)
Fixpoint run (es : list event) (re : JSRE) : option JSRE :=
  match es with
  | [] => Some re
  | e :: es => re ← step e re; run es re
  end.

End Builtins.

(** ** The native bindings fs.readFile, fs.writeFile and process.exec *)

(** The disk as ioutil sees it: regular files by path, and the paths that
    cannot be opened for writing (a directory, a missing parent, a file
    without write permission). The empty path names no file. *)
Record Disk := {
  files : gmap string string;
  unwritable : gset string
}.

(** ioutil.ReadFile; None is an error. *)
Definition ReadFile (filename : string) (d : Disk) : option string :=
  if decide (filename = "") then None else files d !! filename.

(** ioutil.WriteFile(filename, data, 0644): creates or truncates the file.
    None is an error. *)
Definition WriteFile (filename data : string) (d : Disk) : option Disk :=
  if decide (filename = "" \/ filename ∈ unwritable d) then None
  else Some {| files := <[filename := data]> (files d); unwritable := unwritable d |}.

(** A command run by exec.Command("sh", "-c", cmd): the chunks it writes
    to its two output streams in the order they are written, and how it
    ends. *)
Inductive stream := Stdout | Stderr.

#[global] Instance stream_eq_dec : EqDecision stream.
Proof. solve_decision. Defined.

Inductive ending :=
| Exit (code : nat)
| Signal (name : string)
| NotStarted (reason : string).

Record Process := {
  writes : list (stream * string);
  end_ : ending
}.

(** The error of Cmd.Run: nil for exit status 0, otherwise an error that
    carries the ending. *)
Definition Run_error (p : Process) : option ending :=
  match end_ p with
  | Exit 0 => None
  | e => Some e
  end.

(** err.Error() *)
Definition Error (e : ending) : string :=
  match e with
  | Exit code => "exit status " +:+ pretty code
  | Signal name => "signal: " +:+ name
  | NotStarted reason => "fork/exec /bin/sh: " +:+ reason
  end.

(** Cmd.CombinedOutput: both streams go to one buffer. *)
Definition CombinedOutput (p : Process) : string * option ending :=
  (foldr (fun w out => w.2 +:+ out) "" (writes p), Run_error p).

(** What went to one of the two streams alone. *)
Definition stream_output (s : stream) (p : Process) : string :=
  foldr (fun w out => if decide (w.1 = s) then w.2 +:+ out else out) "" (writes p).

Section Bindings.
Context `{vm : Otto}.

(** The host: what sh -c does with a command text. *)
Variable sh : string -> Process.

Definition readFile (call : FunctionCall) (d : Disk) : Value :=
  let file := default "" (ToString (Argument call 0)) in
  match ReadFile file d with
  | None => FalseValue
  | Some contents => Text contents
  end.

Definition writeFile (call : FunctionCall) (d : Disk) : Value * Disk :=
  match ToString (Argument call 0) with
  | None => (FalseValue, d)
  | Some file =>
      match ToString (Argument call 1) with
      | None => (FalseValue, d)
      | Some content =>
          match WriteFile file content d with
          | None => (FalseValue, d)
          | Some d => (TrueValue, d)
          end
      end
  end.

Definition shellExec (call : FunctionCall) : Value :=
  match ToString (Argument call 0) with
  | None => FalseValue
  | Some cmd =>
      let '(stdout, err) := CombinedOutput (sh cmd) in
      let stderr := match err with
                    | None => ""
                    | Some err => Error err
                    end in
      Object [("stdout", stdout); ("stderr", stderr)]
  end.
End Bindings.

(** An interpreter to run examples with: a number reads as itself, true as
    1 and anything else as NaN, hence 0; text, undefined and booleans have
    their usual string form and nothing else is given one. *)
Definition sample_vm : Otto :=
  {| ToInteger := fun v => match v with
                           | Number n => n
                           | Boolean true => 1%Z
                           | _ => 0%Z
                           end;
     ToString := fun v => match v with
                          | Text s => Some s
                          | Undefined => Some "undefined"
                          | Boolean true => Some "true"
                          | Boolean false => Some "false"
                          | _ => None
                          end |}.

(** A host for examples: false exits with status 1 after a line on its
    standard error, every other command prints a line and succeeds. *)
Definition sample_sh (cmd : string) : Process :=
  if decide (cmd = "false")
  then {| writes := [(Stderr, "oops")]; end_ := Exit 1 |}
  else {| writes := [(Stdout, "ok"); (Stderr, "note")]; end_ := Exit 0 |}.

(** The argument slice as the specification words it: the delay dropped,
    the callback followed by the arguments from position 2 on. *)
Definition arguments_as_claimed (call : FunctionCall) : option (list (option Value)) :=
  match ArgumentList call with
  | [] => None
  | callback :: _ => Some (Some <$> callback :: drop 2 (ArgumentList call))
  end.

(** What the interpreter does with Function.call.call applied to a slice:
    the first entry is the function it invokes, the second the receiver,
    the others the arguments the function gets. *)
Definition Function_call_call (arguments : list (option Value))
  : option (option Value * list (option Value)) :=
  match arguments with
  | [] => None
  | f :: rest => Some (f, drop 1 rest)
  end.

(** The largest delay whose nanoseconds still fit an int64. *)
Definition max_delay : Z := 9223372036854%Z.

(** The slice build_arguments makes of callback :: rest, in closed form. *)
Definition timer_arguments (callback : Value) (rest : list Value) : list (option Value) :=
  if decide (1 < length rest)
  then Some callback :: None :: (Some <$> drop 1 rest)
  else [Some callback].

(** Script [js] cancels timer t: it calls clearTimeout (or clearInterval)
    on it. *)
Definition cancels (t : handle) (js : list builtin) : Prop :=
  exists call, ClearTimeout call ∈ js /\ as_jsTimer (Argument call 0) = Some t.

(** How many times the callback of timer t has been invoked. *)
Definition is_call (t : handle) (o : output) : bool :=
  match o with
  | Call t' _ => bool_decide (t' = t)
  | _ => false
  end.

Definition fires (t : handle) (re : JSRE) : nat :=
  length (List.filter (is_call t) (trace re)).

(** tm' is the jsTimer tm, but for the state of its time.Timer. *)
Definition same_entry (tm tm' : jsTimer) : Prop :=
  duration tm' = duration tm /\ interval tm' = interval tm /\ call tm' = call tm.

(** tm' is tm, left alone or with its time.Timer stopped. *)
Definition stopped_or_same (tm tm' : jsTimer) : Prop :=
  same_entry tm tm' /\ (timer tm' = timer tm \/ timer tm' = Stop_timer (timer tm)).

(** Each one-shot timer has fired at most once, and one that has fired is
    inactive and out of the registry; [cur] is the timer whose callback is
    running, which is still registered. A pointer that is not allocated
    has not fired and is not registered. *)
Definition timer_ok (cur : option handle) (re : JSRE) (t : handle) : Prop :=
  match heap re !! t with
  | None => fires t re = 0 /\ t ∉ registry re
  | Some tm =>
      interval tm = false ->
      fires t re = 0 \/
      (fires t re = 1 /\ timer tm = Inactive /\ (cur <> Some t -> t ∉ registry re))
  end.

Definition fire_once (cur : option handle) (re : JSRE) : Prop :=
  forall t, timer_ok cur re t.

(** ** Example runs *)

Definition cb : Value := Function "cb".

(** Script sets a one-shot timer through a request and the timer expires:
    setTimeout(cb, 5, "x"). *)
Definition expiry_run : list event :=
  [CallDo 0;
   Request 0 [SetTimeout {| ArgumentList := [cb; Number 5; Text "x"] |}];
   Expire 0].

(** The same for setInterval(cb, 10). *)
Definition interval_run : list event :=
  [CallDo 0;
   Request 0 [SetInterval {| ArgumentList := [cb; Number 10] |}];
   Expire 0].

Definition after (es : list event) : JSRE := default New (run (vm := sample_vm) es New).

(** The state after a periodic timer has fired once in [interval_run]. *)
Definition interval_fired : JSRE := after (interval_run ++ [Ready 0 [] None]).

(** The done channel of request i: closed exactly once, right after the
    function of the request has run, from the moment the loop has taken the
    request; not closed otherwise. *)
Definition request_ok (re : JSRE) (i : nat) : Prop :=
  match threads re !! i with
  | Some DoWait | Some DoReturned =>
      exists l1 l2, trace re = l1 ++ Run i :: Close i :: l2 /\
        (Close i ∉ l1) /\ (Close i ∉ l2)
  | _ => Close i ∉ trace re
  end.

(** An empty disk on which every path can be written. *)
Definition sample_disk : Disk := {| files := ∅; unwritable := ∅ |}.

(** The timer of [expiry_run] is cancelled through a second request while
    its function is blocked on the send to ready. *)
Definition race_run : list event :=
  expiry_run ++
  [CallDo 1; Request 1 [ClearTimeout {| ArgumentList := [Timer 0] |}]].

(** Stop(true) is taken while a periodic timer is registered; the timer
    then fires and its callback cancels it: clearInterval(t) from inside
    the callback. *)
Definition drain_run : list event :=
  [CallDo 0;
   Request 0 [SetInterval {| ArgumentList := [cb; Number 10] |}];
   CallStop 1 true; StopSignal 1;
   Expire 0;
   Ready 0 [ClearTimeout {| ArgumentList := [Timer 0] |}] None].

(** A periodic timer cancels itself from its callback, then Stop(false). *)
Definition abrupt_run : list event :=
  [CallDo 0;
   Request 0 [SetInterval {| ArgumentList := [cb; Number 10] |}];
   Expire 0;
   Ready 0 [ClearTimeout {| ArgumentList := [Timer 0] |}] None;
   CallStop 1 false; StopSignal 1].

(** ** fs.appendFile *)

(** os.IsNotExist of the error of os.Stat: the disk has no file there. *)
Definition IsNotExist (name : string) (d : Disk) : bool :=
  bool_decide (files d !! name = None).

(** os.Create: the file is created or truncated. The result is the
    *os.File, None for nil on an error, and the disk. *)
Definition Create (name : string) (d : Disk) : option string * Disk :=
  if decide (name = "" \/ name ∈ unwritable d) then (None, d)
  else (Some name, {| files := <[name := ""]> (files d); unwritable := unwritable d |}).

(** os.OpenFile(name, os.O_RDWR|os.O_APPEND|os.O_CREATE, 0644): the file
    is created empty when it is missing and kept as it is otherwise. *)
Definition OpenFile (name : string) (d : Disk) : option string * Disk :=
  if decide (name = "" \/ name ∈ unwritable d) then (None, d)
  else (Some name,
        match files d !! name with
        | Some _ => d
        | None => {| files := <[name := ""]> (files d); unwritable := unwritable d |}
        end).

(** file.Write: an error on a nil file; the bytes go to the end of the
    file otherwise. *)
Definition Write (file : option string) (data : string) (d : Disk) : option Disk :=
  match file with
  | None => None
  | Some name =>
      Some {| files := alter (fun old => old +:+ data) name (files d);
              unwritable := unwritable d |}
  end.

Section Append.
Context `{vm : Otto}.

(** The error of Create or OpenFile is overwritten by that of Write, which
    fails on the nil file they leave. *)
Definition appendFile (call : FunctionCall) (d : Disk) : Value * Disk :=
  match ToString (Argument call 0) with
  | None => (FalseValue, d)
  | Some fn =>
      match ToString (Argument call 1) with
      | None => (FalseValue, d)
      | Some content =>
          let '(file, d) := if IsNotExist fn d then Create fn d else OpenFile fn d in
          match Write file content d with
          | None => (FalseValue, d)
          | Some d => (TrueValue, d)
          end
      end
  end.
End Append.


(** ** More about the loop *)

(** Every registered timer is allocated and, unless it is the timer [cur]
    whose callback is running or the loop has panicked, its time.Timer is
    armed or has its function blocked on the send. *)
Definition registered_ok (cur : option handle) (re : JSRE) : Prop :=
  forall t, t ∈ registry re ->
    exists tm, heap re !! t = Some tm /\
      (loop re <> Panicked -> cur <> Some t -> timer tm <> Inactive).

(** 1 when the function of timer t is blocked on the send to ready. *)
Definition sending (t : handle) (re : JSRE) : nat :=
  match heap re !! t with
  | Some tm => if decide (timer tm = Sending) then 1 else 0
  | None => 0
  end.

Definition is_expiry (t : handle) (e : event) : bool :=
  match e with
  | Expire t' => bool_decide (t' = t)
  | _ => false
  end.

(** How many times the duration of timer t elapses in a run. *)
Definition expiries (t : handle) (es : list event) : nat :=
  length (List.filter (is_expiry t) es).

(** The loop has taken the request of this caller. *)
Definition served (th : option thread) : Prop :=
  th = Some DoWait \/ th = Some DoReturned.

(** Script that registers no timer. *)
Definition only_clears (js : list builtin) : Prop :=
  forall b, b ∈ js -> exists call, b = ClearTimeout call.

(** Every call in the trace was made with the slice built from the call
    that registered its timer. *)
Definition calls_ok (re : JSRE) : Prop :=
  forall t arguments, Call t arguments ∈ trace re ->
    exists tm, heap re !! t = Some tm /\ build_arguments (call tm) = Some arguments.

(** setTimeout() with no argument at all, then the expiry. *)
Definition bare_run : list event :=
  [CallDo 0; Request 0 [SetTimeout {| ArgumentList := [] |}]; Expire 0].

(** Stop(true) is taken while a one-shot timer is registered, which then
    expires. *)
Definition drain_oneshot_run : list event :=
  [CallDo 0;
   Request 0 [SetTimeout {| ArgumentList := [cb; Number 5; Text "x"] |}];
   CallStop 1 true; StopSignal 1;
   Expire 0].

(** Stop(true) is taken while a periodic timer is registered, and a second
    caller offers a request. *)
Definition drain_interval_run : list event :=
  [CallDo 0;
   Request 0 [SetInterval {| ArgumentList := [cb; Number 10] |}];
   CallStop 1 true; StopSignal 1;
   CallDo 2].

(** ** Delays *)

Lemma int64_small (z : Z) :
  (- 2 ^ 63 <= z < 2 ^ 63)%Z -> int64 z = z.
Proof.
  intros Hz. unfold int64.
  rewrite Z.mod_small by lia. lia.
Qed.

Lemma milliseconds_exact (delay : Z) :
  (0 < delay <= max_delay)%Z -> milliseconds delay = (delay * Millisecond)%Z.
Proof.
  unfold max_delay, milliseconds, Millisecond. intros Hd.
  apply int64_small. lia.
Qed.

Lemma newTimer_lookup `{vm : Otto} (call : FunctionCall) (interval : bool) (re : JSRE) :
  let r := newTimer call interval re in
  heap r.2 !! r.1.1 =
    Some {| timer := Pending (milliseconds (Z.max 1 (ToInteger (Argument call 1))));
            duration := milliseconds (Z.max 1 (ToInteger (Argument call 1)));
            interval := interval; call := call |}.
Proof.
  cbn. rewrite lookup_insert_eq.
  assert ((if decide (0 >= ToInteger (Argument call 1))%Z
           then 1%Z else ToInteger (Argument call 1))
          = Z.max 1 (ToInteger (Argument call 1))) as ->; [|done].
  case_decide; lia.
Qed.

(** C6, amended: a registration whose delay argument is zero or negative
    stores the duration of 1 millisecond and arms the timer with it; a
    positive delay d of at most 9223372036854 stores and arms d
    milliseconds. *)
Theorem newTimer_delay `{vm : Otto} (call : FunctionCall) (interval : bool) (re : JSRE) :
  (ToInteger (Argument call 1) <= max_delay)%Z ->
  let d := ToInteger (Argument call 1) in
  let r := newTimer call interval re in
  exists tm, heap r.2 !! r.1.1 = Some tm /\ timer tm = Pending (duration tm) /\
    ((d <= 0)%Z -> duration tm = (1 * Millisecond)%Z) /\
    ((0 < d)%Z -> duration tm = (d * Millisecond)%Z).
Proof.
  intros Hmax d r. eexists. split; [apply newTimer_lookup|].
  cbn. split; [done|]. fold d. split; intros Hd.
  - replace (Z.max 1 d) with 1%Z by lia. by apply milliseconds_exact.
  - replace (Z.max 1 d) with d by lia. by apply milliseconds_exact.
Qed.

Lemma newTimer_delay_witness :
  let r := newTimer (vm := sample_vm)
             {| ArgumentList := [Function "cb"; Number 0; Text "x"] |} false New in
  exists tm, heap r.2 !! r.1.1 = Some tm /\ timer tm = Pending (duration tm) /\
    ((0 <= 0)%Z -> duration tm = (1 * Millisecond)%Z) /\
    ((0 < 0)%Z -> duration tm = (0 * Millisecond)%Z).
Proof.
  apply (newTimer_delay (vm := sample_vm)
           {| ArgumentList := [Function "cb"; Number 0; Text "x"] |} false New).
  vm_compute. discriminate.
Defined.

(** C6 as stated fails: the positive delay 9223372036855 is stored as a
    negative duration, its nanoseconds having wrapped around. *)
Lemma newTimer_delay_overflow :
  let d := 9223372036855%Z in
  let r := newTimer (vm := sample_vm)
             {| ArgumentList := [Function "cb"; Number d] |} false New in
  (0 < d)%Z /\
  duration <$> heap r.2 !! r.1.1 = Some (-9223372036854551616)%Z /\
  duration <$> heap r.2 !! r.1.1 <> Some (d * Millisecond)%Z.
Proof. vm_compute. repeat split; discriminate. Qed.

(** ** The argument slice of a timer call *)

Lemma build_arguments_fill (tmp : list Value) (n : nat) (pre : list (option Value)) :
  length tmp <= n ->
  foldl (fun arguments '(i, value) => <[i + length pre := Some value]> arguments)
        (pre ++ replicate n None) (imap pair tmp)
  = pre ++ (Some <$> tmp) ++ replicate (n - length tmp) None.
Proof.
  induction tmp as [|v tmp IH] using rev_ind; intros Hn.
  - cbn. by rewrite Nat.sub_0_r.
  - rewrite length_app in Hn. cbn in Hn.
    rewrite imap_app, foldl_app, IH by lia. cbn [imap foldl].
    rewrite length_app, fmap_app. cbn [fmap list_fmap length].
    replace (n - length tmp) with (S (n - (length tmp + 1))) by lia.
    cbn [replicate].
    rewrite !app_assoc.
    replace (length tmp + 0 + length pre)
      with (length (pre ++ (Some <$> tmp)) + 0)
      by (rewrite length_app, length_fmap; lia).
    rewrite insert_app_r. cbn. by rewrite <- !app_assoc.
Qed.

Lemma build_arguments_cons (callback : Value) (rest : list Value) :
  build_arguments {| ArgumentList := callback :: rest |}
  = Some (timer_arguments callback rest).
Proof.
  unfold build_arguments, timer_arguments. cbn [ArgumentList length drop].
  f_equal. destruct (decide (1 < length rest)).
  - rewrite decide_True by lia.
    pose proof (build_arguments_fill (drop 1 rest) (length (drop 1 rest))
                  [None; None]) as Hfill.
    cbn [length] in Hfill. cbn [Nat.add replicate].
    change (None :: None :: replicate (length (drop 1 rest)) (@None Value))
      with ([None; None] ++ replicate (length (drop 1 rest)) (@None Value)).
    rewrite Hfill by lia.
    rewrite Nat.sub_diag. cbn. by rewrite app_nil_r.
  - rewrite decide_False by lia. done.
Qed.

(** C5 as stated fails: for setTimeout(cb, 5, "x") the slice handed to the
    interpreter is cb, nil, "x" and not cb, "x". *)
Lemma build_arguments_not_as_claimed :
  let call := {| ArgumentList := [Function "cb"; Number 5; Text "x"] |} in
  build_arguments call = Some [Some (Function "cb"); None; Some (Text "x")] /\
  arguments_as_claimed call = Some [Some (Function "cb"); Some (Text "x")] /\
  build_arguments call <> arguments_as_claimed call.
Proof. vm_compute. repeat split; discriminate. Qed.

(** ** What script leaves alone *)

Section Loop.
Context `{vm : Otto}.

Lemma same_entry_refl (tm : jsTimer) : same_entry tm tm.
Proof. by repeat split. Qed.

Lemma same_entry_trans (tm1 tm2 tm3 : jsTimer) :
  same_entry tm1 tm2 -> same_entry tm2 tm3 -> same_entry tm1 tm3.
Proof. unfold same_entry. intros (?&?&?) (?&?&?). repeat split; congruence. Qed.

Lemma same_entry_with_timer (f : time_Timer -> time_Timer) (tm : jsTimer) :
  same_entry tm (with_timer f tm).
Proof. by repeat split. Qed.

Lemma stopped_or_same_refl (tm : jsTimer) : stopped_or_same tm tm.
Proof. split; [apply same_entry_refl | by left]. Qed.

Lemma Stop_timer_idemp (x : time_Timer) : Stop_timer (Stop_timer x) = Stop_timer x.
Proof. by destruct x. Qed.

Lemma stopped_or_same_trans (tm1 tm2 tm3 : jsTimer) :
  stopped_or_same tm1 tm2 -> stopped_or_same tm2 tm3 -> stopped_or_same tm1 tm3.
Proof.
  intros [Hs12 H12] [Hs23 H23]. split; [by eapply same_entry_trans|].
  destruct H12 as [H12|H12], H23 as [H23|H23]; rewrite H23, H12;
    rewrite ?Stop_timer_idemp; auto.
Qed.

Lemma stopped_or_same_Stop (tm : jsTimer) :
  stopped_or_same tm (with_timer Stop_timer tm).
Proof. split; [apply same_entry_with_timer | by right]. Qed.

Lemma stopped_or_same_Inactive (tm tm' : jsTimer) :
  stopped_or_same tm tm' -> timer tm = Inactive -> timer tm' = Inactive.
Proof. intros [_ [H|H]] Htm; rewrite H, Htm; done. Qed.

Lemma run_builtin_frame (b : builtin) (re : JSRE) :
  trace (run_builtin b re) = trace re /\
  loop (run_builtin b re) = loop re /\
  waitForCallbacks (run_builtin b re) = waitForCallbacks re /\
  threads (run_builtin b re) = threads re.
Proof.
  destruct b as [c|c|c]; cbn; try done.
  unfold clearTimeout. by destruct (as_jsTimer _).
Qed.

Lemma run_script_cons (b : builtin) (js : list builtin) (re : JSRE) :
  run_script (b :: js) re = run_script js (run_builtin b re).
Proof. reflexivity. Qed.

Lemma run_script_frame (js : list builtin) (re : JSRE) :
  trace (run_script js re) = trace re /\
  loop (run_script js re) = loop re /\
  waitForCallbacks (run_script js re) = waitForCallbacks re /\
  threads (run_script js re) = threads re.
Proof.
  revert re. induction js as [|b js IH]; intros re; [done|].
  rewrite run_script_cons. destruct (IH (run_builtin b re)) as (-> & -> & -> & ->).
  apply run_builtin_frame.
Qed.

Lemma fresh_not_allocated (re : JSRE) (t : handle) (tm : jsTimer) :
  heap re !! t = Some tm -> t <> fresh (dom (heap re)).
Proof.
  intros Ht ->. apply (is_fresh (dom (heap re))). apply elem_of_dom. eauto.
Qed.

Lemma run_builtin_fields (b : builtin) (re : JSRE) (t : handle) (tm : jsTimer) :
  heap re !! t = Some tm ->
  exists tm', heap (run_builtin b re) !! t = Some tm' /\ stopped_or_same tm tm'.
Proof.
  intros Ht. pose proof (fresh_not_allocated re t tm Ht) as Hfresh.
  destruct b as [c|c|c]; cbn.
  - exists tm. rewrite lookup_insert_ne by done. auto using stopped_or_same_refl.
  - exists tm. rewrite lookup_insert_ne by done. auto using stopped_or_same_refl.
  - unfold clearTimeout. destruct (as_jsTimer _) as [t'|]; cbn.
    + destruct (decide (t' = t)) as [->|Hne].
      * rewrite lookup_alter_eq, Ht. cbn. eauto using stopped_or_same_Stop.
      * rewrite lookup_alter_ne by done. eauto using stopped_or_same_refl.
    + eauto using stopped_or_same_refl.
Qed.

Lemma run_script_fields (js : list builtin) (re : JSRE) (t : handle) (tm : jsTimer) :
  heap re !! t = Some tm ->
  exists tm', heap (run_script js re) !! t = Some tm' /\ stopped_or_same tm tm'.
Proof.
  revert re tm. induction js as [|b js IH]; intros re tm Ht.
  - eauto using stopped_or_same_refl.
  - rewrite run_script_cons.
    destruct (run_builtin_fields b re t tm Ht) as (tm1 & Ht1 & Hsame1).
    destruct (IH _ _ Ht1) as (tm2 & Ht2 & Hsame2).
    eauto using stopped_or_same_trans.
Qed.

(** A timer stays registered through script that does not cancel it. *)
Lemma run_script_registered (js : list builtin) (re : JSRE) (t : handle) :
  t ∈ registry re -> ~ cancels t js -> t ∈ registry (run_script js re).
Proof.
  revert re. induction js as [|b js IH]; intros re Ht Hjs; [done|].
  rewrite run_script_cons. apply IH.
  - destruct b as [c|c|c]; cbn.
    + set_solver.
    + set_solver.
    + unfold clearTimeout. destruct (as_jsTimer _) as [t'|] eqn:Ht'; cbn; [|done].
      assert (t' <> t); [|set_solver].
      intros ->. apply Hjs. exists c. split; [left|done].
  - intros (c & Hc & Hct). apply Hjs. exists c. split; [by right|done].
Qed.

(** ** The timer branch of the select *)

Lemma exit_loop_trace (re : JSRE) : trace (exit_loop re) = trace re.
Proof. done. Qed.

Lemma break_if_drained_trace (re : JSRE) : trace (break_if_drained re) = trace re.
Proof. unfold break_if_drained. by destruct (_ && _). Qed.

Lemma break_if_drained_emit (o : output) (re : JSRE) :
  break_if_drained (emit o re) = emit o (break_if_drained re).
Proof. unfold break_if_drained. cbn. by destruct (_ && _). Qed.

Lemma set_registry_emit (f : gset handle -> gset handle) (o : output) (re : JSRE) :
  set_registry f (emit o re) = emit o (set_registry f re).
Proof. done. Qed.

Lemma invoke_trace (t : handle) (arguments : list (option Value))
    (js : list builtin) (err : option string) (re : JSRE) :
  trace (invoke t arguments js err re)
  = trace re ++ Call t arguments ::
      match err with Some e => [Println e arguments] | None => [] end.
Proof.
  unfold invoke.
  destruct (run_script_frame js (emit (Call t arguments) re)) as (Htr & _).
  destruct err; cbn; rewrite Htr; cbn; [|done].
  by rewrite <- app_assoc.
Qed.

Lemma invoke_failure (t : handle) (arguments : list (option Value))
    (js : list builtin) (e : string) (re : JSRE) :
  invoke t arguments js (Some e) re
  = emit (Println e arguments) (invoke t arguments js None re).
Proof. done. Qed.

Lemma build_arguments_call (tm : jsTimer) (callback : Value) (rest : list Value) :
  ArgumentList (call tm) = callback :: rest ->
  build_arguments (call tm) = Some (timer_arguments callback rest).
Proof.
  intros Hargs. rewrite <- build_arguments_cons, <- Hargs. by destruct (call tm).
Qed.

(** The timer branch on a timer whose call has a callback. *)
Lemma step_Ready (re : JSRE) (t : handle) (tm : jsTimer)
    (callback : Value) (rest : list Value) (js : list builtin) (err : option string) :
  loop re = Running -> heap re !! t = Some tm -> timer tm = Sending ->
  ArgumentList (call tm) = callback :: rest ->
  step (Ready t js err) re =
    Some (let re1 := invoke t (timer_arguments callback rest) js err
                       (set_heap (alter (with_timer (fun _ => Inactive)) t) re) in
          if interval tm
          then set_heap (alter (with_timer (Reset_timer (duration tm))) t) re1
          else break_if_drained (set_registry (fun r => r ∖ {[t]}) re1)).
Proof.
  intros Hloop Ht Htimer Hargs.
  unfold step. rewrite Hloop, Ht. cbn. rewrite Htimer.
  unfold on_ready. cbn. rewrite lookup_alter_eq, Ht. cbn.
  by rewrite (build_arguments_call tm callback rest Hargs).
Qed.

Lemma step_Ready_trace (re re' : JSRE) (t : handle) (tm : jsTimer)
    (callback : Value) (rest : list Value) (js : list builtin) (err : option string) :
  heap re !! t = Some tm -> ArgumentList (call tm) = callback :: rest ->
  step (Ready t js err) re = Some re' ->
  trace re' = trace re ++ Call t (timer_arguments callback rest) ::
      match err with
      | Some e => [Println e (timer_arguments callback rest)]
      | None => []
      end.
Proof.
  intros Ht Hargs Hstep.
  assert (loop re = Running /\ timer tm = Sending) as [Hloop Htimer].
  { unfold step in Hstep. rewrite Ht in Hstep. cbn in Hstep.
    destruct (loop re), (timer tm); try done. }
  rewrite (step_Ready re t tm callback rest js err) in Hstep by done.
  injection Hstep as <-. cbn zeta.
  destruct (interval tm).
  - cbn. by rewrite invoke_trace.
  - by rewrite break_if_drained_trace; cbn; rewrite invoke_trace.
Qed.

(** C5, amended: on a fire, the slice handed to the interpreter is the
    callback alone when the scheduling call had no argument beyond the
    delay, and otherwise the callback, a nil entry where the delay stood,
    and the arguments from position 2 on; Function.call.call takes the nil
    entry for the receiver, so that the callback is invoked with exactly
    the arguments from position 2 on, once. *)
Theorem timer_call_arguments (re : JSRE) (t : handle) (tm : jsTimer)
    (callback : Value) (rest : list Value) (js : list builtin) (err : option string) :
  loop re = Running -> heap re !! t = Some tm -> timer tm = Sending ->
  ArgumentList (call tm) = callback :: rest ->
  let bound := drop 2 (ArgumentList (call tm)) in
  let arguments :=
    if decide (2 < length (ArgumentList (call tm)))
    then Some callback :: None :: (Some <$> bound)
    else [Some callback] in
  build_arguments (call tm) = Some arguments /\
  Function_call_call arguments = Some (Some callback, Some <$> bound) /\
  exists re', step (Ready t js err) re = Some re' /\
    fires t re' = S (fires t re) /\
    exists printed, trace re' = trace re ++ Call t arguments :: printed.
Proof.
  intros Hloop Ht Htimer Hargs bound arguments.
  assert (arguments = timer_arguments callback rest) as Harguments.
  { unfold arguments, bound, timer_arguments. rewrite Hargs. cbn [length drop].
    destruct (decide (1 < length rest)).
    - by rewrite decide_True by lia.
    - by rewrite decide_False by lia. }
  split; [rewrite Harguments; by apply build_arguments_call|].
  split.
  { unfold arguments, bound. rewrite Hargs. cbn [length drop].
    case_decide as Hlen; cbn; [by rewrite drop_0|].
    assert (drop 1 rest = []) as ->; [|done].
    apply drop_ge. cbn in Hlen. lia. }
  destruct (step (Ready t js err) re) as [re'|] eqn:Hstep.
  2:{ by rewrite (step_Ready re t tm callback rest js err) in Hstep. }
  exists re'. split; [done|].
  pose proof (step_Ready_trace re re' t tm callback rest js err Ht Hargs Hstep) as Htr.
  rewrite Harguments. split; [|eauto].
  unfold fires. rewrite Htr, List.filter_app, length_app. cbn.
  rewrite bool_decide_eq_true_2 by done. cbn.
  destruct err; cbn; lia.
Qed.

End Loop.

Lemma timer_call_arguments_witness :
  let arguments := [Some cb; None; Some (Text "x")] in
  build_arguments {| ArgumentList := [cb; Number 5; Text "x"] |} = Some arguments /\
  Function_call_call arguments = Some (Some cb, [Some (Text "x")]) /\
  exists re', step (vm := sample_vm) (Ready 0 [] None) (after expiry_run) = Some re' /\
    fires 0 re' = S (fires 0 (after expiry_run)) /\
    exists printed, trace re' = trace (after expiry_run) ++ Call 0 arguments :: printed.
Proof.
  apply (timer_call_arguments (vm := sample_vm) (after expiry_run) 0
           {| timer := Sending; duration := 5000000; interval := false;
              call := {| ArgumentList := [cb; Number 5; Text "x"] |} |}
           cb [Number 5; Text "x"] [] None); vm_compute; reflexivity.
Defined.

(** ** Failing callbacks, rearming and removal *)

Section Fire.
Context `{vm : Otto}.

Lemma invoke_frame (t : handle) (arguments : list (option Value))
    (js : list builtin) (err : option string) (re : JSRE) :
  loop (invoke t arguments js err re) = loop re /\
  waitForCallbacks (invoke t arguments js err re) = waitForCallbacks re /\
  threads (invoke t arguments js err re) = threads re.
Proof.
  unfold invoke.
  destruct (run_script_frame js (emit (Call t arguments) re)) as (_ & Hl & Hw & Hth).
  by destruct err.
Qed.

Lemma invoke_fields (t : handle) (arguments : list (option Value))
    (js : list builtin) (err : option string) (re : JSRE) (t' : handle) (tm : jsTimer) :
  heap re !! t' = Some tm ->
  exists tm', heap (invoke t arguments js err re) !! t' = Some tm' /\ stopped_or_same tm tm'.
Proof.
  intros Ht. unfold invoke.
  destruct (run_script_fields js (emit (Call t arguments) re) t' tm Ht) as (tm' & ? & ?).
  exists tm'. by destruct err.
Qed.

Lemma invoke_registered (t : handle) (arguments : list (option Value))
    (js : list builtin) (err : option string) (re : JSRE) (t' : handle) :
  t' ∈ registry re -> ~ cancels t' js -> t' ∈ registry (invoke t arguments js err re).
Proof.
  intros Ht Hjs. unfold invoke.
  pose proof (run_script_registered js (emit (Call t arguments) re) t' Ht Hjs).
  by destruct err.
Qed.

Lemma break_if_drained_loop (re : JSRE) :
  loop re = Running ->
  loop (break_if_drained re) = Running \/
  (loop (break_if_drained re) = Exited /\ waitForCallbacks re = true /\ registry re = ∅).
Proof.
  intros Hloop. unfold break_if_drained.
  destruct (waitForCallbacks re); cbn; [|by left].
  case_bool_decide as Hsize; [|by left].
  right. repeat split. by apply size_empty_inv, leibniz_equiv in Hsize.
Qed.

(** The state a fire of a periodic timer leaves behind. *)
Lemma step_Ready_interval (re re' : JSRE) (t : handle) (tm : jsTimer)
    (callback : Value) (rest : list Value) (js : list builtin) (err : option string) :
  heap re !! t = Some tm -> ArgumentList (call tm) = callback :: rest ->
  interval tm = true ->
  step (Ready t js err) re = Some re' ->
  loop re' = Running /\
  (exists tm', heap re' !! t = Some tm' /\
     timer tm' = Pending (duration tm) /\ same_entry tm tm') /\
  (t ∈ registry re -> ~ cancels t js -> t ∈ registry re').
Proof.
  intros Ht Hargs Hint Hstep.
  assert (loop re = Running /\ timer tm = Sending) as [Hloop Htimer].
  { unfold step in Hstep. rewrite Ht in Hstep. cbn in Hstep.
    destruct (loop re), (timer tm); try done. }
  rewrite (step_Ready re t tm callback rest js err) in Hstep by done.
  injection Hstep as <-. cbn zeta. rewrite Hint.
  set (re0 := set_heap (alter (with_timer (fun _ => Inactive)) t) re).
  assert (heap re0 !! t = Some (with_timer (fun _ => Inactive) tm)) as Ht0.
  { unfold re0. cbn. by rewrite lookup_alter_eq, Ht. }
  destruct (invoke_fields t (timer_arguments callback rest) js err re0 t _ Ht0)
    as (tm1 & Ht1 & Hsame1).
  destruct (invoke_frame t (timer_arguments callback rest) js err re0) as (Hl & _).
  split; [cbn; by rewrite Hl|]. split.
  - exists (with_timer (Reset_timer (duration tm)) tm1). cbn.
    rewrite lookup_alter_eq, Ht1. destruct Hsame1 as [Hsame1 _].
    repeat split; apply Hsame1.
  - intros Hreg Hjs. cbn. by apply invoke_registered.
Qed.

(** The cleanup after the loop: a timer is left alone or stopped, and one
    that is registered is stopped. *)
Lemma stop_all_lookup (l : list handle) (h : gmap handle jsTimer)
    (t : handle) (tm : jsTimer) :
  h !! t = Some tm ->
  exists tm', foldr (alter (with_timer Stop_timer)) h l !! t = Some tm' /\
    stopped_or_same tm tm' /\
    (t ∈ l -> timer tm' = Stop_timer (timer tm)).
Proof.
  intros Ht. induction l as [|a l (tm1 & Ht1 & Hsame1 & Hin1)]; cbn [foldr].
  - exists tm. split; [done|]. split; [apply stopped_or_same_refl|].
    by intros ?%elem_of_nil.
  - destruct (decide (a = t)) as [->|Hne].
    + exists (with_timer Stop_timer tm1). rewrite lookup_alter_eq, Ht1.
      split; [done|].
      assert (timer (with_timer Stop_timer tm1) = Stop_timer (timer tm)) as Hstop.
      { cbn. destruct Hsame1 as [_ [->| ->]]; by rewrite ?Stop_timer_idemp. }
      split; [|done].
      split; [|by right].
      eapply same_entry_trans; [apply Hsame1 | apply same_entry_with_timer].
    + exists tm1. rewrite lookup_alter_ne by done. split; [done|].
      split; [done|]. intros [?|?]%elem_of_cons; [congruence | auto].
Qed.

Lemma stop_all_lookup_None (l : list handle) (h : gmap handle jsTimer) (t : handle) :
  h !! t = None -> foldr (alter (with_timer Stop_timer)) h l !! t = None.
Proof.
  intros Ht. induction l as [|a l IH]; cbn [foldr]; [done|].
  destruct (decide (a = t)) as [->|Hne].
  - by rewrite lookup_alter_eq, IH.
  - by rewrite lookup_alter_ne.
Qed.

Lemma exit_loop_lookup (re : JSRE) (t : handle) (tm : jsTimer) :
  heap re !! t = Some tm ->
  exists tm', heap (exit_loop re) !! t = Some tm' /\ stopped_or_same tm tm' /\
    (t ∈ registry re -> timer tm' = Stop_timer (timer tm)).
Proof.
  intros Ht. cbn.
  destruct (stop_all_lookup (elements (registry re)) (heap re) t tm Ht)
    as (tm' & ? & ? & Hin).
  exists tm'. split; [done|]. split; [done|].
  intros ?. apply Hin. by apply elem_of_elements.
Qed.

Lemma break_if_drained_lookup (re : JSRE) (t : handle) (tm : jsTimer) :
  heap re !! t = Some tm ->
  exists tm', heap (break_if_drained re) !! t = Some tm' /\ stopped_or_same tm tm'.
Proof.
  intros Ht. unfold break_if_drained. destruct (_ && _).
  - destruct (exit_loop_lookup re t tm Ht) as (tm' & ? & ? & _). eauto.
  - eauto using stopped_or_same_refl.
Qed.

Lemma break_if_drained_registry (re : JSRE) :
  registry (break_if_drained re) ⊆ registry re.
Proof. unfold break_if_drained. destruct (_ && _); cbn; set_solver. Qed.

(** The state a fire of a one-shot timer leaves behind. *)
Lemma step_Ready_oneshot (re re' : JSRE) (t : handle) (tm : jsTimer)
    (callback : Value) (rest : list Value) (js : list builtin) (err : option string) :
  heap re !! t = Some tm -> ArgumentList (call tm) = callback :: rest ->
  interval tm = false ->
  step (Ready t js err) re = Some re' ->
  (t ∉ registry re') /\ loop re' <> Panicked /\
  exists tm', heap re' !! t = Some tm' /\ timer tm' = Inactive /\ same_entry tm tm'.
Proof.
  intros Ht Hargs Hint Hstep.
  assert (loop re = Running /\ timer tm = Sending) as [Hloop Htimer].
  { unfold step in Hstep. rewrite Ht in Hstep. cbn in Hstep.
    destruct (loop re), (timer tm); try done. }
  rewrite (step_Ready re t tm callback rest js err) in Hstep by done.
  injection Hstep as <-. cbn zeta. rewrite Hint.
  set (re0 := set_heap (alter (with_timer (fun _ => Inactive)) t) re).
  assert (heap re0 !! t = Some (with_timer (fun _ => Inactive) tm)) as Ht0.
  { unfold re0. cbn. by rewrite lookup_alter_eq, Ht. }
  destruct (invoke_fields t (timer_arguments callback rest) js err re0 t _ Ht0)
    as (tm1 & Ht1 & Hsame1).
  destruct (invoke_frame t (timer_arguments callback rest) js err re0) as (Hl & _).
  set (re1 := set_registry (fun r => r ∖ {[t]})
                (invoke t (timer_arguments callback rest) js err re0)).
  assert (heap re1 !! t = Some tm1) as Ht1' by done.
  destruct (break_if_drained_lookup re1 t tm1 Ht1') as (tm2 & Ht2 & Hsame2).
  split; [|split].
  - intros Hin. apply break_if_drained_registry in Hin. cbn in Hin.
    apply elem_of_difference in Hin as [_ Hin]. by apply Hin, elem_of_singleton.
  - assert (loop re1 = Running) as Hl1 by (unfold re1; cbn; by rewrite Hl).
    destruct (break_if_drained_loop re1 Hl1) as [->|[-> _]]; done.
  - exists tm2. split; [done|].
    pose proof (stopped_or_same_trans _ _ _ Hsame1 Hsame2) as Hsame.
    split; [by apply (stopped_or_same_Inactive _ _ Hsame)|].
    eapply same_entry_trans; [apply same_entry_with_timer | apply Hsame].
Qed.

(** C7: when the invocation of a timer callback fails, the loop does what
    it does when the invocation succeeds and prints the error besides: the
    failure does not end the loop, a periodic timer is rearmed with its
    duration all the same, and it stays registered unless the callback
    itself cancelled it. *)
Theorem callback_failure (re : JSRE) (t : handle) (tm : jsTimer)
    (callback : Value) (rest : list Value) (js : list builtin) (e : string) :
  loop re = Running -> heap re !! t = Some tm -> timer tm = Sending ->
  ArgumentList (call tm) = callback :: rest ->
  exists re0 re1 arguments,
    step (Ready t js None) re = Some re0 /\
    step (Ready t js (Some e)) re = Some re1 /\
    re1 = emit (Println e arguments) re0 /\
    loop re1 <> Panicked /\
    (interval tm = true ->
       loop re1 = Running /\
       (exists tm', heap re1 !! t = Some tm' /\
          timer tm' = Pending (duration tm) /\ same_entry tm tm') /\
       (t ∈ registry re -> ~ cancels t js -> t ∈ registry re1)).
Proof.
  intros Hloop Ht Htimer Hargs.
  pose proof (step_Ready re t tm callback rest js None Hloop Ht Htimer Hargs) as H0.
  pose proof (step_Ready re t tm callback rest js (Some e) Hloop Ht Htimer Hargs) as H1.
  cbn zeta in H0, H1.
  destruct (step (Ready t js None) re) as [re0|] eqn:Hs0; [|done].
  destruct (step (Ready t js (Some e)) re) as [re1|] eqn:Hs1; [|done].
  injection H0 as H0. injection H1 as H1.
  exists re0, re1, (timer_arguments callback rest).
  split; [done|]. split; [done|]. split.
  { rewrite H0, H1. destruct (interval tm); [done|].
    by rewrite set_registry_emit, break_if_drained_emit. }
  split.
  - destruct (interval tm) eqn:Hint.
    + by destruct (step_Ready_interval _ _ _ _ _ _ _ _ Ht Hargs Hint Hs1) as (-> & _).
    + by destruct (step_Ready_oneshot _ _ _ _ _ _ _ _ Ht Hargs Hint Hs1) as (_ & ? & _).
  - intros Hint. exact (step_Ready_interval _ _ _ _ _ _ _ _ Ht Hargs Hint Hs1).
Qed.

End Fire.

Lemma callback_failure_witness :
  exists re0 re1 arguments,
    step (vm := sample_vm) (Ready 0 [] None) (after interval_run) = Some re0 /\
    step (vm := sample_vm) (Ready 0 [] (Some "TypeError")) (after interval_run) = Some re1 /\
    re1 = emit (Println "TypeError" arguments) re0 /\
    loop re1 <> Panicked /\
    (true = true ->
       loop re1 = Running /\
       (exists tm', heap re1 !! 0 = Some tm' /\
          timer tm' = Pending 10000000 /\
          same_entry {| timer := Sending; duration := 10000000; interval := true;
                        call := {| ArgumentList := [cb; Number 10] |} |} tm') /\
       (0 ∈ registry (after interval_run) -> ~ cancels 0 [] -> 0 ∈ registry re1)).
Proof.
  apply (callback_failure (vm := sample_vm) (after interval_run) 0
           {| timer := Sending; duration := 10000000; interval := true;
              call := {| ArgumentList := [cb; Number 10] |} |}
           cb [Number 10] [] "TypeError"); vm_compute; reflexivity.
Defined.

(** ** One-shot timers fire once *)

Section Once.
Context `{vm : Otto}.

Lemma fires_emit (t : handle) (o : output) (re : JSRE) :
  fires t (emit o re) = fires t re + (if is_call t o then 1 else 0).
Proof.
  unfold fires. cbn. rewrite List.filter_app, length_app. cbn.
  by destruct (is_call t o).
Qed.

Lemma fire_once_New (cur : option handle) : fire_once cur New.
Proof. intros t. unfold timer_ok. cbn. rewrite lookup_empty. set_solver. Qed.

Lemma fire_once_alter (cur : option handle) (re : JSRE) (t0 : handle)
    (f : time_Timer -> time_Timer) :
  (forall tm, heap re !! t0 = Some tm -> interval tm = false ->
              timer tm = Inactive -> f Inactive = Inactive) ->
  fire_once cur re -> fire_once cur (set_heap (alter (with_timer f) t0) re).
Proof.
  intros Hf Hre t. specialize (Hre t). unfold timer_ok in *. cbn.
  destruct (decide (t0 = t)) as [->|Hne].
  2:{ rewrite lookup_alter_ne by done. exact Hre. }
  rewrite lookup_alter_eq.
  destruct (heap re !! t) as [tm|] eqn:Ht; cbn; [|exact Hre].
  intros Hint. destruct (Hre Hint) as [H0|(H1 & Hoff & Hreg)]; [by left|right].
  split; [done|]. split; [|done]. rewrite Hoff. by apply (Hf tm).
Qed.

Lemma fire_once_registry (cur : option handle) (re : JSRE)
    (f : gset handle -> gset handle) :
  f (registry re) ⊆ registry re ->
  fire_once cur re -> fire_once cur (set_registry f re).
Proof.
  intros Hf Hre t. specialize (Hre t). unfold timer_ok in *. cbn.
  destruct (heap re !! t) as [tm|].
  - intros Hint. destruct (Hre Hint) as [H0|(H1 & Hoff & Hreg)]; [by left|right].
    repeat split; try done. intros Hcur Hin. by apply (Hreg Hcur), Hf.
  - destruct Hre as [H0 Hreg]. split; [done|]. intros Hin. by apply Hreg, Hf.
Qed.

Lemma fire_once_newTimer (cur : option handle) (re : JSRE)
    (call : FunctionCall) (interval : bool) :
  fire_once cur re -> fire_once cur (newTimer call interval re).2.
Proof.
  intros Hre t. pose proof (Hre t) as Ht. unfold timer_ok in *. cbn.
  set (t0 := fresh (dom (heap re))).
  assert (heap re !! t0 = None) as Hfresh.
  { apply not_elem_of_dom, is_fresh. }
  destruct (decide (t0 = t)) as [<-|Hne].
  - rewrite lookup_insert_eq. cbn. intros _. left.
    rewrite Hfresh in Ht. apply Ht.
  - rewrite lookup_insert_ne by done.
    destruct (heap re !! t) as [tm|].
    + intros Hint. destruct (Ht Hint) as [H0|(H1 & Hoff & Hreg)]; [by left|right].
      repeat split; try done. intros Hcur. specialize (Hreg Hcur).
      rewrite elem_of_union, elem_of_singleton. intros [?|?]; [congruence|done].
    + destruct Ht as [H0 Hreg]. split; [done|].
      rewrite elem_of_union, elem_of_singleton. intros [?|?]; [congruence|done].
Qed.

Lemma fire_once_run_builtin (cur : option handle) (re : JSRE) (b : builtin) :
  fire_once cur re -> fire_once cur (run_builtin b re).
Proof.
  intros Hre. destruct b as [c|c|c].
  - by apply (fire_once_newTimer cur re c false).
  - by apply (fire_once_newTimer cur re c true).
  - cbn. unfold clearTimeout. destruct (as_jsTimer _) as [t|]; cbn; [|done].
    apply (fire_once_registry cur _ (fun r => r ∖ {[t]}));
      [cbn; by intros x [? _]%elem_of_difference|].
    apply fire_once_alter; [done|done].
Qed.

Lemma fire_once_run_script (cur : option handle) (js : list builtin) (re : JSRE) :
  fire_once cur re -> fire_once cur (run_script js re).
Proof.
  revert re. induction js as [|b js IH]; intros re Hre; [done|].
  rewrite run_script_cons. by apply IH, fire_once_run_builtin.
Qed.

Lemma fire_once_emit (cur : option handle) (re : JSRE) (o : output) :
  (forall t, is_call t o = false) ->
  fire_once cur re -> fire_once cur (emit o re).
Proof.
  intros Ho Hre t. specialize (Hre t). unfold timer_ok in *.
  rewrite fires_emit, Ho, Nat.add_0_r. exact Hre.
Qed.

Lemma fire_once_Call (re : JSRE) (t0 : handle) (arguments : list (option Value))
    (tm : jsTimer) :
  heap re !! t0 = Some tm -> timer tm = Inactive ->
  (interval tm = false -> fires t0 re = 0) ->
  fire_once None re -> fire_once (Some t0) (emit (Call t0 arguments) re).
Proof.
  intros Ht0 Hoff Hfresh Hre t. specialize (Hre t). unfold timer_ok in *.
  rewrite fires_emit. cbn [is_call heap emit registry].
  destruct (decide (t0 = t)) as [<-|Hne].
  - rewrite bool_decide_eq_true_2 by done. rewrite Ht0. intros Hint. right.
    rewrite (Hfresh Hint). repeat split; try done.
  - rewrite bool_decide_eq_false_2, Nat.add_0_r by done.
    destruct (heap re !! t) as [tm'|]; [|exact Hre].
    intros Hint. destruct (Hre Hint) as [H0|(H1 & Hoff' & Hreg)]; [by left|right].
    repeat split; try done. intros _. by apply Hreg.
Qed.

Lemma fire_once_done (re : JSRE) (t0 : handle) :
  (t0 ∉ registry re) \/ (exists tm, heap re !! t0 = Some tm /\ interval tm = true) ->
  fire_once (Some t0) re -> fire_once None re.
Proof.
  intros Ht0 Hre t. specialize (Hre t). unfold timer_ok in *.
  destruct (heap re !! t) as [tm|] eqn:Ht; [|exact Hre].
  intros Hint. destruct (Hre Hint) as [H0|(H1 & Hoff & Hreg)]; [by left|right].
  repeat split; try done. intros _.
  destruct (decide (t0 = t)) as [->|Hne]; [|apply Hreg; congruence].
  destruct Ht0 as [?|(tm' & Htm' & Hint')]; [done|]. congruence.
Qed.

Lemma fire_once_stop_all (cur : option handle) (re : JSRE) (l : list handle) :
  fire_once cur re ->
  fire_once cur (set_heap (fun h => foldr (alter (with_timer Stop_timer)) h l) re).
Proof.
  intros Hre. induction l as [|a l IH]; [by destruct re|].
  change (fire_once cur
            (set_heap (alter (with_timer Stop_timer) a)
               (set_heap (fun h => foldr (alter (with_timer Stop_timer)) h l) re))).
  by apply fire_once_alter.
Qed.

Lemma fire_once_exit_loop (cur : option handle) (re : JSRE) :
  fire_once cur re -> fire_once cur (exit_loop re).
Proof.
  intros Hre. unfold exit_loop.
  apply (fire_once_registry cur
           (set_heap (fun h => foldr (alter (with_timer Stop_timer)) h
                                 (elements (registry re))) re) (fun _ => ∅));
    [set_solver|].
  by apply fire_once_stop_all.
Qed.

Lemma fire_once_break_if_drained (cur : option handle) (re : JSRE) :
  fire_once cur re -> fire_once cur (break_if_drained re).
Proof.
  intros Hre. unfold break_if_drained.
  destruct (_ && _); [by apply fire_once_exit_loop | done].
Qed.

Lemma fire_once_invoke (re : JSRE) (t : handle) (arguments : list (option Value))
    (js : list builtin) (err : option string) (tm : jsTimer) :
  heap re !! t = Some tm -> timer tm = Inactive ->
  (interval tm = false -> fires t re = 0) ->
  fire_once None re -> fire_once (Some t) (invoke t arguments js err re).
Proof.
  intros Ht Hoff Hfresh Hre. unfold invoke.
  pose proof (fire_once_run_script (Some t) js _
                (fire_once_Call re t arguments tm Ht Hoff Hfresh Hre)) as Hjs.
  destruct err; [by apply fire_once_emit|done].
Qed.

Lemma on_ready_fire_once (re re' : JSRE) (t : handle) (tm : jsTimer)
    (js : list builtin) (err : option string) :
  heap re !! t = Some tm -> timer tm = Sending ->
  on_ready t js err (set_heap (alter (with_timer (fun _ => Inactive)) t) re) = Some re' ->
  fire_once None re -> fire_once None re'.
Proof.
  intros Ht Htimer Hstep Hre.
  set (re0 := set_heap (alter (with_timer (fun _ => Inactive)) t) re) in *.
  assert (fire_once None re0) as Hre0 by (by apply fire_once_alter).
  assert (heap re0 !! t = Some (with_timer (fun _ => Inactive) tm)) as Ht0.
  { unfold re0. cbn. by rewrite lookup_alter_eq, Ht. }
  assert (interval tm = false -> fires t re0 = 0) as Hfresh.
  { intros Hint. specialize (Hre t). unfold timer_ok in Hre. rewrite Ht in Hre.
    destruct (Hre Hint) as [?|(_ & ? & _)]; [done|congruence]. }
  unfold on_ready in Hstep. rewrite Ht0 in Hstep. cbn in Hstep.
  injection Hstep as <-.
  destruct (build_arguments (call tm)) as [arguments|]; [|done].
  pose proof (fire_once_invoke re0 t arguments js err _ Ht0 eq_refl Hfresh Hre0) as Hcb.
  destruct (invoke_fields t arguments js err re0 t _ Ht0) as (tm1 & Ht1 & [Hsame1 _]).
  destruct (interval tm) eqn:Hint.
  - apply fire_once_alter.
    + intros tm' Htm' Hint'. rewrite Ht1 in Htm'. injection Htm' as <-.
      destruct Hsame1 as (_ & Hi & _). cbn in Hi. congruence.
    + apply (fire_once_done _ t); [|done]. right. exists tm1. split; [done|].
      destruct Hsame1 as (_ & Hi & _). cbn in Hi. congruence.
  - apply fire_once_break_if_drained.
    apply (fire_once_done _ t).
    + left. cbn. rewrite elem_of_difference, elem_of_singleton. by intros [_ ?].
    + apply (fire_once_registry (Some t) _ (fun r => r ∖ {[t]})); [|done].
      by intros x [? _]%elem_of_difference.
Qed.

(** Every step keeps the invariant. *)
Lemma step_fire_once (e : event) (re re' : JSRE) :
  step e re = Some re' -> fire_once None re -> fire_once None re'.
Proof.
  intros Hstep Hre. unfold step in Hstep.
  destruct e as [t|t js err|i|i js|i drain|i|i].
  - destruct (heap re !! t) as [tm|] eqn:Ht; [|by destruct (loop re)].
    cbn in Hstep. destruct (timer tm) eqn:Htimer; try by destruct (loop re).
    assert (re' = set_heap (alter (with_timer (fun _ => Sending)) t) re) as ->.
    { destruct (loop re); congruence. }
    apply fire_once_alter; [|done]. intros tm' Htm'. congruence.
  - destruct (heap re !! t) as [tm|] eqn:Ht; [|by destruct (loop re)].
    cbn in Hstep.
    destruct (loop re); try done. destruct (timer tm) eqn:Htimer; try done.
    by apply (on_ready_fire_once re re' t tm js err).
  - assert (re' = set_thread i DoSend re) as ->; [|done].
    destruct (loop re), (threads re !! i); congruence.
  - destruct (loop re); try done.
    destruct (threads re !! i) as [[| | | | |]|]; try done.
    injection Hstep as <-. unfold on_request.
    apply fire_once_break_if_drained, fire_once_emit; [done|].
    apply fire_once_run_script, fire_once_emit; done.
  - assert (re' = set_thread i (StopSend drain) re) as ->; [|done].
    destruct (loop re), (threads re !! i); congruence.
  - destruct (loop re); try done.
    destruct (threads re !! i) as [[| |b| | |]|]; try done.
    injection Hstep as <-. unfold on_stop.
    destruct (_ || _); [by apply fire_once_exit_loop | done].
  - destruct (loop re); try done;
      destruct (threads re !! i) as [[| | | | |]|]; try done;
      repeat case_match; try done; by injection Hstep as <-.
Qed.

Lemma run_fire_once (es : list event) (re re' : JSRE) :
  run es re = Some re' -> fire_once None re -> fire_once None re'.
Proof.
  revert re. induction es as [|e es IH]; intros re Hrun Hre; cbn in Hrun.
  - by injection Hrun as <-.
  - destruct (step e re) as [re1|] eqn:Hstep; [|done]. cbn in Hrun.
    eauto using step_fire_once.
Qed.

End Once.

(** ** What a step keeps: the trace grows, allocated timers stay *)

Section Growth.
Context `{vm : Otto}.

Lemma alter_same_entry (f : time_Timer -> time_Timer) (t0 : handle) (re : JSRE)
    (t : handle) (tm : jsTimer) :
  heap re !! t = Some tm ->
  exists tm', heap (set_heap (alter (with_timer f) t0) re) !! t = Some tm' /\
    same_entry tm tm'.
Proof.
  intros Ht. cbn. destruct (decide (t0 = t)) as [->|Hne].
  - rewrite lookup_alter_eq, Ht. eauto using same_entry_with_timer.
  - rewrite lookup_alter_ne by done. eauto using same_entry_refl.
Qed.

Lemma on_ready_extends (re re' : JSRE) (t : handle) (js : list builtin)
    (err : option string) :
  on_ready t js err re = Some re' ->
  (exists l, trace re' = trace re ++ l) /\
  (forall t' tm, heap re !! t' = Some tm ->
     exists tm', heap re' !! t' = Some tm' /\ same_entry tm tm').
Proof.
  unfold on_ready. destruct (heap re !! t) as [tm0|]; [|done]. cbn.
  intros [= <-].
  destruct (build_arguments (call tm0)) as [arguments|].
  2:{ split; [exists []; by rewrite app_nil_r | eauto using same_entry_refl]. }
  destruct (interval tm0).
  - split; [cbn; rewrite invoke_trace; eauto|].
    intros t' tm Ht'.
    destruct (invoke_fields t arguments js err re t' tm Ht') as (tm1 & Ht1 & [Hs1 _]).
    destruct (alter_same_entry (Reset_timer (duration tm0)) t _ t' tm1 Ht1)
      as (tm2 & Ht2 & Hs2).
    eauto using same_entry_trans.
  - split; [rewrite break_if_drained_trace; cbn; rewrite invoke_trace; eauto|].
    intros t' tm Ht'.
    destruct (invoke_fields t arguments js err re t' tm Ht') as (tm1 & Ht1 & [Hs1 _]).
    destruct (break_if_drained_lookup
                (set_registry (fun r => r ∖ {[t]}) (invoke t arguments js err re))
                t' tm1 Ht1) as (tm2 & Ht2 & [Hs2 _]).
    eauto using same_entry_trans.
Qed.

Lemma step_extends (e : event) (re re' : JSRE) :
  step e re = Some re' ->
  (exists l, trace re' = trace re ++ l) /\
  (forall t tm, heap re !! t = Some tm ->
     exists tm', heap re' !! t = Some tm' /\ same_entry tm tm').
Proof.
  assert (forall re : JSRE,
    (exists l, trace re = trace re ++ l) /\
    (forall t tm, heap re !! t = Some tm ->
       exists tm', heap re !! t = Some tm' /\ same_entry tm tm')) as Hrefl.
  { intros re0. split; [exists []; by rewrite app_nil_r | eauto using same_entry_refl]. }
  intros Hstep. unfold step in Hstep.
  destruct e as [t|t js err|i|i js|i drain|i|i].
  - destruct (heap re !! t) as [tm|] eqn:Ht; [|by destruct (loop re)].
    cbn in Hstep. destruct (timer tm) eqn:Htimer; try by destruct (loop re).
    assert (re' = set_heap (alter (with_timer (fun _ => Sending)) t) re) as ->.
    { destruct (loop re); congruence. }
    split; [exists []; by rewrite app_nil_r | intros; by apply alter_same_entry].
  - destruct (heap re !! t) as [tm|] eqn:Ht; [|by destruct (loop re)].
    cbn in Hstep.
    destruct (loop re); try done. destruct (timer tm) eqn:Htimer; try done.
    destruct (on_ready_extends _ _ _ _ _ Hstep) as [Htr Hheap].
    split; [done|]. intros t' tm' Ht'.
    destruct (alter_same_entry (fun _ => Inactive) t re t' tm' Ht') as (tm1 & Ht1 & Hs1).
    destruct (Hheap t' tm1 Ht1) as (tm2 & Ht2 & Hs2).
    eauto using same_entry_trans.
  - assert (re' = set_thread i DoSend re) as ->; [|exact (Hrefl re)].
    destruct (loop re), (threads re !! i); congruence.
  - destruct (loop re); try done.
    destruct (threads re !! i) as [[| | | | |]|]; try done.
    injection Hstep as <-. unfold on_request. split.
    + rewrite break_if_drained_trace. cbn.
      destruct (run_script_frame js (emit (Run i) (set_thread i DoWait re))) as [-> _].
      cbn. rewrite <- app_assoc. eauto.
    + intros t tm Ht.
      destruct (run_script_fields js (emit (Run i) (set_thread i DoWait re)) t tm Ht)
        as (tm1 & Ht1 & [Hs1 _]).
      destruct (break_if_drained_lookup
                  (emit (Close i) (run_script js (emit (Run i) (set_thread i DoWait re))))
                  t tm1 Ht1) as (tm2 & Ht2 & [Hs2 _]).
      eauto using same_entry_trans.
  - assert (re' = set_thread i (StopSend drain) re) as ->; [|exact (Hrefl re)].
    destruct (loop re), (threads re !! i); congruence.
  - destruct (loop re); try done.
    destruct (threads re !! i) as [[| |b| | |]|]; try done.
    injection Hstep as <-. unfold on_stop.
    destruct (_ || _); [|exact (Hrefl re)].
    split; [exists []; by rewrite app_nil_r|].
    intros t tm Ht.
    destruct (exit_loop_lookup (set_waitForCallbacks b (set_thread i StopWait re)) t tm Ht)
      as (tm1 & Ht1 & [Hs1 _] & _).
    eauto.
  - destruct (loop re); try done;
      destruct (threads re !! i) as [[| | | | |]|]; try done;
      repeat case_match; try done; injection Hstep as <-; exact (Hrefl re).
Qed.

Lemma run_extends (es : list event) (re re' : JSRE) :
  run es re = Some re' ->
  (exists l, trace re' = trace re ++ l) /\
  (forall t tm, heap re !! t = Some tm ->
     exists tm', heap re' !! t = Some tm' /\ same_entry tm tm').
Proof.
  revert re. induction es as [|e es IH]; intros re Hrun; cbn in Hrun.
  - injection Hrun as <-.
    split; [exists []; by rewrite app_nil_r | eauto using same_entry_refl].
  - destruct (step e re) as [re1|] eqn:Hstep; [|done]. cbn in Hrun.
    destruct (step_extends _ _ _ Hstep) as [[l1 Htr1] Hheap1].
    destruct (IH _ Hrun) as [[l2 Htr2] Hheap2].
    split.
    + exists (l1 ++ l2). by rewrite Htr2, Htr1, app_assoc.
    + intros t tm Ht. destruct (Hheap1 t tm Ht) as (tm1 & Ht1 & Hs1).
      destruct (Hheap2 t tm1 Ht1) as (tm2 & Ht2 & Hs2).
      eauto using same_entry_trans.
Qed.

Lemma run_fires_mono (es : list event) (re re' : JSRE) (t : handle) :
  run es re = Some re' -> fires t re <= fires t re'.
Proof.
  intros Hrun. destruct (run_extends _ _ _ Hrun) as [[l Htr] _].
  unfold fires. rewrite Htr, List.filter_app, length_app. lia.
Qed.

End Growth.

(** C4: after a fire, a periodic timer is the same entry of the heap,
    armed again with its own duration, and it is still registered unless
    the callback cancelled it; a one-shot timer is out of the registry and
    inactive, it has fired once, and in every later state it has still
    fired once only and is still out of the registry. *)
Theorem timer_after_fire `{vm : Otto} (es : list event) (re re' : JSRE) (t : handle)
    (tm : jsTimer) (callback : Value) (rest : list Value)
    (js : list builtin) (err : option string) :
  run es New = Some re ->
  heap re !! t = Some tm -> ArgumentList (call tm) = callback :: rest ->
  step (Ready t js err) re = Some re' ->
  if interval tm then
    (exists tm', heap re' !! t = Some tm' /\
       timer tm' = Pending (duration tm) /\ same_entry tm tm') /\
    (t ∈ registry re -> ~ cancels t js -> t ∈ registry re')
  else
    (t ∉ registry re') /\ fires t re' = 1 /\
    forall es' re'', run es' re' = Some re'' ->
      fires t re'' = 1 /\ (t ∉ registry re'') /\
      exists tm'', heap re'' !! t = Some tm'' /\ timer tm'' = Inactive.
Proof.
  intros Hrun Ht Hargs Hstep.
  destruct (interval tm) eqn:Hint.
  { by destruct (step_Ready_interval _ _ _ _ _ _ _ _ Ht Hargs Hint Hstep) as (_ & ? & ?). }
  destruct (step_Ready_oneshot _ _ _ _ _ _ _ _ Ht Hargs Hint Hstep)
    as (Hreg & _ & tm' & Ht' & Hoff & Hsame).
  pose proof (run_fire_once _ _ _ Hrun (fire_once_New None)) as Hre.
  pose proof (step_fire_once _ _ _ Hstep Hre) as Hre'.
  assert (1 <= fires t re') as Hfired.
  { unfold fires.
    rewrite (step_Ready_trace _ _ _ _ _ _ _ _ Ht Hargs Hstep), List.filter_app, length_app.
    cbn. rewrite bool_decide_eq_true_2 by done. cbn. lia. }
  assert (interval tm' = false) as Hint' by (destruct Hsame as (_ & -> & _); done).
  split; [done|]. split.
  { pose proof (Hre' t) as Hok. unfold timer_ok in Hok. rewrite Ht' in Hok.
    destruct (Hok Hint') as [?|(? & _)]; [lia|done]. }
  intros es' re'' Hrun'.
  pose proof (run_fire_once _ _ _ Hrun' Hre' t) as Hok.
  pose proof (run_fires_mono _ _ _ t Hrun') as Hmono.
  destruct (run_extends _ _ _ Hrun') as [_ Hheap].
  destruct (Hheap t tm' Ht') as (tm'' & Ht'' & (_ & Hint'' & _)).
  unfold timer_ok in Hok. rewrite Ht'' in Hok.
  destruct Hok as [?|(? & ? & Hout)]; [congruence|lia|].
  split; [done|]. split; [by apply Hout|]. eauto.
Qed.

Lemma timer_after_fire_witness :
  (exists tm', heap interval_fired !! 0 = Some tm' /\
     timer tm' = Pending 10000000 /\
     same_entry {| timer := Sending; duration := 10000000; interval := true;
                   call := {| ArgumentList := [cb; Number 10] |} |} tm') /\
  (0 ∈ registry (after interval_run) -> ~ cancels 0 [] -> 0 ∈ registry interval_fired).
Proof.
  apply (timer_after_fire (vm := sample_vm) interval_run (after interval_run)
           interval_fired 0
           {| timer := Sending; duration := 10000000; interval := true;
              call := {| ArgumentList := [cb; Number 10] |} |}
           cb [Number 10] [] None); vm_compute; reflexivity.
Defined.

(** ** Requests and their completion signal *)

Section Requests.
Context `{vm : Otto}.

Lemma break_if_drained_threads (re : JSRE) :
  threads (break_if_drained re) = threads re.
Proof. unfold break_if_drained. by destruct (_ && _). Qed.

(** The request branch: the function runs, then done is closed. *)
Lemma on_request_trace (i : nat) (js : list builtin) (re : JSRE) :
  trace (on_request i js re) = trace re ++ [Run i; Close i] /\
  threads (on_request i js re) = threads re.
Proof.
  unfold on_request. rewrite break_if_drained_trace, break_if_drained_threads. cbn.
  destruct (run_script_frame js (emit (Run i) re)) as (-> & _ & _ & ->).
  cbn. by rewrite <- app_assoc.
Qed.

Lemma on_ready_threads (re re' : JSRE) (t : handle) (js : list builtin)
    (err : option string) :
  on_ready t js err re = Some re' ->
  threads re' = threads re /\
  exists l, trace re' = trace re ++ l /\ forall i, Close i ∉ l.
Proof.
  unfold on_ready. destruct (heap re !! t) as [tm0|]; [|done]. cbn.
  intros [= <-].
  destruct (build_arguments (call tm0)) as [arguments|].
  2:{ split; [done|]. exists []. rewrite app_nil_r. split; [done|].
      intros i. apply not_elem_of_nil. }
  destruct (invoke_frame t arguments js err re) as (_ & _ & Hth).
  assert (forall i, Close i ∉ Call t arguments ::
            match err with Some e => [Println e arguments] | None => [] end) as Hl.
  { intros i Hin. apply elem_of_cons in Hin as [?|Hin]; [done|].
    destruct err; [|by apply elem_of_nil in Hin].
    apply elem_of_cons in Hin as [?|Hin]; [done|]. by apply elem_of_nil in Hin. }
  destruct (interval tm0).
  - split; [done|]. cbn. rewrite invoke_trace. eauto.
  - rewrite break_if_drained_threads, break_if_drained_trace. split; [done|].
    cbn. rewrite invoke_trace. eauto.
Qed.

(** What each event does to the threads and to the trace. *)
Lemma step_threads (e : event) (re re' : JSRE) :
  step e re = Some re' ->
  match e with
  | Expire _ => threads re' = threads re /\ trace re' = trace re
  | Ready _ _ _ =>
      threads re' = threads re /\
      exists l, trace re' = trace re ++ l /\ forall i, Close i ∉ l
  | CallDo i =>
      threads re !! i = None /\ threads re' = <[i := DoSend]> (threads re) /\
      trace re' = trace re
  | Request i _ =>
      threads re !! i = Some DoSend /\ threads re' = <[i := DoWait]> (threads re) /\
      trace re' = trace re ++ [Run i; Close i]
  | CallStop i drain =>
      threads re !! i = None /\ threads re' = <[i := StopSend drain]> (threads re) /\
      trace re' = trace re
  | StopSignal i =>
      (exists drain, threads re !! i = Some (StopSend drain)) /\
      threads re' = <[i := StopWait]> (threads re) /\ trace re' = trace re
  | Return i =>
      trace re' = trace re /\
      ((threads re !! i = Some DoWait /\ Close i ∈ trace re /\
        threads re' = <[i := DoReturned]> (threads re)) \/
       (threads re !! i = Some StopWait /\ loop re = Exited /\
        threads re' = <[i := StopReturned]> (threads re)))
  end.
Proof.
  intros Hstep. unfold step in Hstep.
  destruct e as [t|t js err|i|i js|i drain|i|i].
  - destruct (heap re !! t) as [tm|] eqn:Ht; [|by destruct (loop re)].
    cbn in Hstep. destruct (timer tm) eqn:Htimer; try by destruct (loop re).
    assert (re' = set_heap (alter (with_timer (fun _ => Sending)) t) re) as ->; [|done].
    destruct (loop re); congruence.
  - destruct (heap re !! t) as [tm|] eqn:Ht; [|by destruct (loop re)].
    cbn in Hstep.
    destruct (loop re); try done. destruct (timer tm) eqn:Htimer; try done.
    by apply on_ready_threads in Hstep.
  - destruct (threads re !! i) eqn:Hi; [by destruct (loop re)|].
    assert (re' = set_thread i DoSend re) as ->; [|done].
    destruct (loop re); congruence.
  - destruct (loop re); try done.
    destruct (threads re !! i) as [[| | | | |]|]; try done.
    injection Hstep as <-.
    destruct (on_request_trace i js (set_thread i DoWait re)) as [-> ->]. done.
  - destruct (threads re !! i) eqn:Hi; [by destruct (loop re)|].
    assert (re' = set_thread i (StopSend drain) re) as ->; [|done].
    destruct (loop re); congruence.
  - destruct (loop re); try done.
    destruct (threads re !! i) as [[| |b| | |]|]; try done.
    injection Hstep as <-. split; [eauto|].
    unfold on_stop. by destruct (_ || _).
  - destruct (threads re !! i) as [[| | | | |]|] eqn:Hi; try by destruct (loop re).
    + unfold closed in Hstep. case_bool_decide as Hclosed; [|by destruct (loop re)].
      assert (re' = set_thread i DoReturned re) as ->; [destruct (loop re); congruence|].
      split; [done|]. by left.
    + destruct (loop re) eqn:Hloop; try done.
      injection Hstep as <-. split; [done|]. by right.
Qed.

Lemma request_ok_keep (re re' : JSRE) (i : nat) (l : list output) :
  threads re' !! i = threads re !! i -> trace re' = trace re ++ l ->
  (Close i ∉ l) -> request_ok re i -> request_ok re' i.
Proof.
  intros Hth Htr Hl. unfold request_ok. rewrite Hth, Htr.
  assert ((Close i ∉ trace re) -> Close i ∉ trace re ++ l) as Hout.
  { intros ? [?|?]%elem_of_app; done. }
  assert ((exists l1 l2, trace re = l1 ++ Run i :: Close i :: l2 /\
             (Close i ∉ l1) /\ (Close i ∉ l2)) ->
          exists l1 l2, trace re ++ l = l1 ++ Run i :: Close i :: l2 /\
             (Close i ∉ l1) /\ (Close i ∉ l2)) as Hin.
  { intros (l1 & l2 & -> & ? & ?). exists l1, (l2 ++ l).
    split; [by rewrite <- app_assoc|]. split; [done|].
    intros [?|?]%elem_of_app; done. }
  destruct (threads re !! i) as [[| | | | |]|]; auto.
Qed.

Lemma step_request_ok (e : event) (re re' : JSRE) :
  step e re = Some re' ->
  (forall i, request_ok re i) -> forall i, request_ok re' i.
Proof.
  intros Hstep Hre i. specialize (Hre i).
  pose proof (step_threads e re re' Hstep) as He.
  destruct e as [t|t js err|j|j js|j drain|j|j].
  - destruct He as [Hth Htr].
    apply (request_ok_keep re re' i []); rewrite ?Hth, ?Htr, ?app_nil_r; try done.
    apply not_elem_of_nil.
  - destruct He as (Hth & l & Htr & Hl).
    apply (request_ok_keep re re' i l); rewrite ?Hth; done.
  - destruct He as (Hj & Hth & Htr). destruct (decide (j = i)) as [->|Hne].
    + unfold request_ok in *. rewrite Hth, lookup_insert_eq, Htr.
      by rewrite Hj in Hre.
    + apply (request_ok_keep re re' i []); rewrite ?Htr, ?app_nil_r; try done.
      * by rewrite Hth, lookup_insert_ne.
      * apply not_elem_of_nil.
  - destruct He as (Hj & Hth & Htr). destruct (decide (j = i)) as [->|Hne].
    + unfold request_ok in *. rewrite Hth, lookup_insert_eq, Htr.
      rewrite Hj in Hre. exists (trace re), []. split; [done|].
      split; [done|apply not_elem_of_nil].
    + apply (request_ok_keep re re' i [Run j; Close j]); try done.
      * by rewrite Hth, lookup_insert_ne.
      * intros Hin. apply elem_of_cons in Hin as [?|Hin]; [done|].
        apply elem_of_cons in Hin as [?|Hin]; [congruence|].
        by apply elem_of_nil in Hin.
  - destruct He as (Hj & Hth & Htr). destruct (decide (j = i)) as [->|Hne].
    + unfold request_ok in *. rewrite Hth, lookup_insert_eq, Htr.
      by rewrite Hj in Hre.
    + apply (request_ok_keep re re' i []); rewrite ?Htr, ?app_nil_r; try done.
      * by rewrite Hth, lookup_insert_ne.
      * apply not_elem_of_nil.
  - destruct He as ((drain & Hj) & Hth & Htr). destruct (decide (j = i)) as [->|Hne].
    + unfold request_ok in *. rewrite Hth, lookup_insert_eq, Htr.
      by rewrite Hj in Hre.
    + apply (request_ok_keep re re' i []); rewrite ?Htr, ?app_nil_r; try done.
      * by rewrite Hth, lookup_insert_ne.
      * apply not_elem_of_nil.
  - destruct He as (Htr & Hcases). destruct (decide (j = i)) as [->|Hne].
    + unfold request_ok in *.
      destruct Hcases as [(Hj & _ & Hth)|(Hj & _ & Hth)];
        rewrite Hth, lookup_insert_eq, Htr; by rewrite Hj in Hre.
    + apply (request_ok_keep re re' i []); rewrite ?Htr, ?app_nil_r; try done.
      * destruct Hcases as [(_ & _ & Hth)|(_ & _ & Hth)];
          by rewrite Hth, lookup_insert_ne.
      * apply not_elem_of_nil.
Qed.

Lemma run_request_ok (es : list event) (re re' : JSRE) :
  run es re = Some re' ->
  (forall i, request_ok re i) -> forall i, request_ok re' i.
Proof.
  revert re. induction es as [|e es IH]; intros re Hrun Hre; cbn in Hrun.
  - by injection Hrun as <-.
  - destruct (step e re) as [re1|] eqn:Hstep; [|done]. cbn in Hrun.
    eauto using step_request_ok.
Qed.

Lemma request_ok_New (i : nat) : request_ok New i.
Proof. unfold request_ok. cbn. rewrite lookup_empty. apply not_elem_of_nil. Qed.

(** C3: as long as the request of a caller has not been taken, its done
    channel is not closed and the caller cannot return; the loop, taking
    the request, runs the function and then closes done, once; from then on
    the trace holds that one closing and no other; and the caller returns
    from do only with done closed. *)
Theorem request_completion (es : list event) (re : JSRE) (i : nat) :
  run es New = Some re ->
  (threads re !! i = Some DoSend ->
     (Close i ∉ trace re) /\ step (Return i) re = None /\
     forall js re', step (Request i js) re = Some re' ->
       trace re' = trace re ++ [Run i; Close i] /\
       threads re' !! i = Some DoWait) /\
  (threads re !! i = Some DoWait \/ threads re !! i = Some DoReturned ->
     exists l1 l2, trace re = l1 ++ Run i :: Close i :: l2 /\
       (Close i ∉ l1) /\ (Close i ∉ l2)) /\
  (forall re', step (Return i) re = Some re' ->
     threads re' !! i = Some DoReturned -> Close i ∈ trace re).
Proof.
  intros Hrun.
  pose proof (run_request_ok es New re Hrun request_ok_New i) as Hok.
  unfold request_ok in Hok. split; [|split].
  - intros Hi. rewrite Hi in Hok. split; [done|]. split.
    + unfold step. rewrite Hi. by destruct (loop re).
    + intros js re' Hstep.
      destruct (step_threads _ _ _ Hstep) as (_ & Hth & Htr).
      by rewrite Hth, lookup_insert_eq.
  - intros [Hi|Hi]; by rewrite Hi in Hok.
  - intros re' Hstep Hi'.
    destruct (step_threads _ _ _ Hstep) as (_ & [(_ & ? & _)|(_ & _ & Hth)]); [done|].
    rewrite Hth, lookup_insert_eq in Hi'. done.
Qed.

End Requests.

Lemma request_completion_witness :
  let re := after [CallDo 0] in
  (threads re !! 0 = Some DoSend ->
     (Close 0 ∉ trace re) /\ step (vm := sample_vm) (Return 0) re = None /\
     forall js re', step (vm := sample_vm) (Request 0 js) re = Some re' ->
       trace re' = trace re ++ [Run 0; Close 0] /\
       threads re' !! 0 = Some DoWait) /\
  (threads re !! 0 = Some DoWait \/ threads re !! 0 = Some DoReturned ->
     exists l1 l2, trace re = l1 ++ Run 0 :: Close 0 :: l2 /\
       (Close 0 ∉ l1) /\ (Close 0 ∉ l2)) /\
  (forall re', step (vm := sample_vm) (Return 0) re = Some re' ->
     threads re' !! 0 = Some DoReturned -> Close 0 ∈ trace re).
Proof.
  apply (request_completion (vm := sample_vm) [CallDo 0] (after [CallDo 0]) 0).
  vm_compute. reflexivity.
Defined.

(** ** The native bindings *)

Section BindingFacts.
Context `{vm : Otto}.
Variable sh : string -> Process.

Lemma Error_not_empty (e : ending) : Error e <> "".
Proof. by destruct e. Qed.

Lemma Run_error_None (p : Process) : Run_error p = None <-> end_ p = Exit 0.
Proof.
  unfold Run_error. destruct (end_ p) as [[|n]| |]; split; congruence.
Qed.

Lemma shellExec_eq (call : FunctionCall) (cmd : string) :
  ToString (Argument call 0) = Some cmd ->
  shellExec sh call =
    Object [("stdout", foldr (fun w out => w.2 +:+ out) "" (writes (sh cmd)));
            ("stderr", match Run_error (sh cmd) with
                       | None => ""
                       | Some e => Error e
                       end)].
Proof. intros Hcmd. unfold shellExec. by rewrite Hcmd. Qed.

(** C8: given a command text, shellExec returns an object with the two
    properties stdout and stderr, whatever the command does; stderr is the
    empty string when the command succeeds (exit status 0) and is not empty
    when it fails. *)
Theorem shellExec_result (call : FunctionCall) (cmd : string) :
  ToString (Argument call 0) = Some cmd ->
  exists stdout stderr,
    shellExec sh call = Object [("stdout", stdout); ("stderr", stderr)] /\
    (end_ (sh cmd) = Exit 0 -> stderr = "") /\
    (end_ (sh cmd) <> Exit 0 -> stderr <> "").
Proof.
  intros Hcmd. rewrite (shellExec_eq call cmd Hcmd). eexists _, _.
  split; [done|]. split.
  - intros Hend%Run_error_None. by rewrite Hend.
  - intros Hend. destruct (Run_error (sh cmd)) as [e|] eqn:He.
    + apply Error_not_empty.
    + by apply Run_error_None in He.
Qed.

Lemma combined_one_stream (s : stream) (p : Process) :
  (forall w, w ∈ writes p -> w.1 = s) ->
  (CombinedOutput p).1 = stream_output s p.
Proof.
  unfold CombinedOutput, stream_output. cbn.
  induction (writes p) as [|w ws IH]; intros Hall; [done|]. cbn.
  rewrite decide_True by (apply Hall; left).
  f_equal. apply IH. intros w' Hw'. apply Hall. by right.
Qed.

(** C10: the stdout property holds everything the command wrote, to its
    standard output and to its standard error, in the order written, so
    that for a command that writes to its standard error only it holds the
    standard error stream; the stderr property of a failing command is the
    text of the error of the run, which the ending of the process decides. *)
Theorem shellExec_streams (call : FunctionCall) (cmd : string) :
  ToString (Argument call 0) = Some cmd ->
  exists stdout stderr,
    shellExec sh call = Object [("stdout", stdout); ("stderr", stderr)] /\
    stdout = foldr (fun w out => w.2 +:+ out) "" (writes (sh cmd)) /\
    ((forall w, w ∈ writes (sh cmd) -> w.1 = Stderr) ->
       stdout = stream_output Stderr (sh cmd)) /\
    (end_ (sh cmd) <> Exit 0 -> stderr = Error (end_ (sh cmd))).
Proof.
  intros Hcmd. rewrite (shellExec_eq call cmd Hcmd). eexists _, _.
  split; [done|]. split; [done|]. split.
  - intros Hall. by apply (combined_one_stream Stderr (sh cmd)).
  - intros Hend. unfold Run_error. by destruct (end_ (sh cmd)) as [[|n]| |].
Qed.

End BindingFacts.

(** C9: a writeFile that returns true, then a readFile of the same path on
    the disk it leaves, returns the content written. *)
Theorem writeFile_readFile `{vm : Otto} (wcall rcall : FunctionCall) (path content : string)
    (d d' : Disk) :
  ToString (Argument wcall 0) = Some path ->
  ToString (Argument wcall 1) = Some content ->
  ToString (Argument rcall 0) = Some path ->
  writeFile wcall d = (TrueValue, d') ->
  readFile rcall d' = Text content.
Proof.
  intros Hpath Hcontent Hrpath. unfold writeFile, readFile.
  rewrite Hpath, Hcontent, Hrpath. cbn.
  unfold WriteFile, ReadFile. case_decide as Hbad; [done|].
  intros [= <-]. cbn.
  rewrite decide_False by tauto. by rewrite lookup_insert_eq.
Qed.

Lemma shellExec_result_witness :
  exists stdout stderr,
    shellExec (vm := sample_vm) sample_sh {| ArgumentList := [Text "false"] |}
      = Object [("stdout", stdout); ("stderr", stderr)] /\
    (end_ (sample_sh "false") = Exit 0 -> stderr = "") /\
    (end_ (sample_sh "false") <> Exit 0 -> stderr <> "").
Proof.
  apply (shellExec_result (vm := sample_vm) sample_sh
           {| ArgumentList := [Text "false"] |} "false").
  reflexivity.
Defined.

Lemma shellExec_streams_witness :
  exists stdout stderr,
    shellExec (vm := sample_vm) sample_sh {| ArgumentList := [Text "false"] |}
      = Object [("stdout", stdout); ("stderr", stderr)] /\
    stdout = foldr (fun w out => w.2 +:+ out) "" (writes (sample_sh "false")) /\
    ((forall w, w ∈ writes (sample_sh "false") -> w.1 = Stderr) ->
       stdout = stream_output Stderr (sample_sh "false")) /\
    (end_ (sample_sh "false") <> Exit 0 -> stderr = Error (end_ (sample_sh "false"))).
Proof.
  apply (shellExec_streams (vm := sample_vm) sample_sh
           {| ArgumentList := [Text "false"] |} "false").
  reflexivity.
Defined.

(** The failing command false: what it wrote to its standard error comes
    back as stdout, and stderr is the exit status message. *)
Example shellExec_false :
  shellExec (vm := sample_vm) sample_sh {| ArgumentList := [Text "false"] |}
  = Object [("stdout", "oops"); ("stderr", "exit status 1")].
Proof. reflexivity. Qed.

Lemma writeFile_readFile_witness :
  readFile (vm := sample_vm) {| ArgumentList := [Text "/tmp/a"] |}
    {| files := {["/tmp/a" := "hello"]}; unwritable := ∅ |}
  = Text "hello".
Proof.
  apply (writeFile_readFile (vm := sample_vm)
           {| ArgumentList := [Text "/tmp/a"; Text "hello"] |}
           {| ArgumentList := [Text "/tmp/a"] |}
           "/tmp/a" "hello" sample_disk); reflexivity.
Defined.

(** ** Stopping the loop *)

Section Shutdown.
Context `{vm : Otto}.

(** Stop(false), or Stop with an empty registry, ends the loop at once. *)
Lemma on_stop_immediate (drain : bool) (re : JSRE) :
  drain = false \/ registry re = ∅ ->
  on_stop drain re = exit_loop (set_waitForCallbacks drain re).
Proof.
  intros [-> | Hempty]; unfold on_stop; cbn; [done|].
  rewrite Hempty, size_empty. cbn. by rewrite orb_true_r.
Qed.

(** Stop(true) with timers registered: the loop goes on, now draining. *)
Lemma on_stop_drain (re : JSRE) :
  registry re <> ∅ -> on_stop true re = set_waitForCallbacks true re.
Proof.
  intros Hreg. unfold on_stop. cbn.
  rewrite bool_decide_eq_false_2; [done|].
  intros Hsize. by apply Hreg, leibniz_equiv, size_empty_inv.
Qed.

(** Leaving the loop empties the registry and stops every registered
    timer that was armed. *)
Lemma exit_loop_stops (re : JSRE) :
  loop (exit_loop re) = Exited /\ registry (exit_loop re) = ∅ /\
  forall t tm, t ∈ registry re -> heap re !! t = Some tm ->
    exists tm', heap (exit_loop re) !! t = Some tm' /\
      forall d, timer tm' <> Pending d.
Proof.
  split; [done|]. split; [done|].
  intros t tm Hreg Ht.
  destruct (exit_loop_lookup re t tm Ht) as (tm' & Ht' & _ & Hstop).
  exists tm'. split; [done|]. intros d. rewrite (Hstop Hreg).
  by destruct (timer tm).
Qed.

(** While draining, a request or a one-shot fire that leaves the registry
    empty ends the loop. *)
Lemma break_if_drained_exits (re : JSRE) :
  waitForCallbacks re = true -> registry re = ∅ ->
  break_if_drained re = exit_loop re.
Proof.
  intros Hw Hreg. unfold break_if_drained. by rewrite Hw, Hreg, size_empty.
Qed.

(** Stop returns only once the loop has exited. *)
Lemma Stop_returns_after_exit (re re' : JSRE) (i : nat) :
  step (Return i) re = Some re' -> threads re !! i = Some StopWait ->
  loop re = Exited.
Proof.
  intros Hstep Hi.
  destruct (step_threads _ _ _ Hstep) as (_ & [(Hi' & _)|(_ & ? & _)]); [|done].
  congruence.
Qed.

End Shutdown.

(** C1 fails on the code: after setTimeout(cb, 5, "x") the timer expires,
    its function waits on the send to ready, and a request runs
    clearTimeout on it, which takes it out of the registry; the loop then
    receives the notification and invokes the callback all the same. *)
Theorem cancelled_timer_fires :
  let re := after race_run in
  run (vm := sample_vm) race_run New = Some re /\
  registry re = ∅ /\ fires 0 re = 0 /\
  exists re', step (vm := sample_vm) (Ready 0 [] None) re = Some re' /\
    trace re' = trace re ++ [Call 0 [Some cb; None; Some (Text "x")]] /\
    fires 0 re' = 1.
Proof.
  cbn zeta. split; [vm_compute; reflexivity|].
  split; [vm_compute; reflexivity|]. split; [vm_compute; reflexivity|].
  eexists. split; [vm_compute; reflexivity|].
  split; vm_compute; reflexivity.
Qed.

(** C2 fails on the code. In [drain_run] the loop is draining when the
    callback of the only timer, a periodic one, cancels it: the registry is
    empty and yet the loop runs on, the timer is armed again, Stop cannot
    return, and the callback is invoked once more at the next expiry. In
    [abrupt_run] the loop exits on Stop(false) and leaves such a timer
    armed. *)
Theorem drain_misses_empty_registry :
  let re := after drain_run in
  let re2 := after abrupt_run in
  (run (vm := sample_vm) drain_run New = Some re /\
   waitForCallbacks re = true /\ registry re = ∅ /\ loop re = Running /\
   timer <$> heap re !! 0 = Some (Pending 10000000) /\
   step (vm := sample_vm) (Return 1) re = None /\
   exists re', run (vm := sample_vm) [Expire 0; Ready 0 [] None] re = Some re' /\
     fires 0 re' = 2 /\ loop re' = Running) /\
  (run (vm := sample_vm) abrupt_run New = Some re2 /\
   loop re2 = Exited /\ registry re2 = ∅ /\
   timer <$> heap re2 !! 0 = Some (Pending 10000000)).
Proof.
  cbn zeta. split.
  - repeat (split; [vm_compute; reflexivity|]).
    eexists. split; [vm_compute; reflexivity|].
    split; vm_compute; reflexivity.
  - repeat split; vm_compute; reflexivity.
Qed.

(** ** fs.appendFile and fs.writeFile on the disk *)

Section Files.
Context `{vm : Otto}.

Lemma append_assoc (a b c : string) : (a +:+ b) +:+ c = a +:+ (b +:+ c).
Proof.
  induction a as [|x a IH]; [done|].
  change (String x ((a +:+ b) +:+ c) = String x (a +:+ (b +:+ c))).
  by rewrite IH.
Qed.

Lemma alter_Some_insert (f : string -> string) (m : gmap string string)
    (k old : string) :
  m !! k = Some old -> alter f k m = <[k := f old]> m.
Proof.
  intros Hk. rewrite <- (insert_id m k old Hk) at 1. apply alter_insert_eq.
Qed.

(** appendFile in one equation: it fails on the empty path and on a path
    that cannot be written, and otherwise leaves the old content, if any,
    followed by the new. *)
Lemma appendFile_eq (call : FunctionCall) (path content : string) (d : Disk) :
  ToString (Argument call 0) = Some path ->
  ToString (Argument call 1) = Some content ->
  appendFile call d =
    if decide (path = "" \/ path ∈ unwritable d) then (FalseValue, d)
    else (TrueValue,
          {| files := <[path := default "" (files d !! path) +:+ content]> (files d);
             unwritable := unwritable d |}).
Proof.
  intros Hpath Hcontent. unfold appendFile. rewrite Hpath, Hcontent.
  unfold IsNotExist, Create, OpenFile.
  destruct (decide (path = "" \/ path ∈ unwritable d)) as [Hbad|Hok].
  { by case_bool_decide. }
  case_bool_decide as Hmissing.
  - cbn. rewrite Hmissing. cbn. by rewrite alter_insert_eq.
  - destruct (files d !! path) as [old|] eqn:Hold; [|done]. cbn.
    by rewrite (alter_Some_insert _ _ _ old Hold).
Qed.

Lemma writeFile_eq (call : FunctionCall) (path content : string) (d : Disk) :
  ToString (Argument call 0) = Some path ->
  ToString (Argument call 1) = Some content ->
  writeFile call d =
    if decide (path = "" \/ path ∈ unwritable d) then (FalseValue, d)
    else (TrueValue,
          {| files := <[path := content]> (files d); unwritable := unwritable d |}).
Proof.
  intros Hpath Hcontent. unfold writeFile, WriteFile. rewrite Hpath, Hcontent.
  by case_decide.
Qed.

Lemma readFile_eq (call : FunctionCall) (path : string) (d : Disk) :
  ToString (Argument call 0) = Some path -> path <> "" ->
  readFile call d = match files d !! path with
                    | Some contents => Text contents
                    | None => FalseValue
                    end.
Proof.
  intros Hpath Hne. unfold readFile, ReadFile. rewrite Hpath. cbn.
  by rewrite decide_False.
Qed.

(** appendFile on a path with no file creates the file with the content
    given: a readFile of the path then returns that content. *)
Theorem appendFile_creates (acall rcall : FunctionCall) (path content : string)
    (d d' : Disk) :
  ToString (Argument acall 0) = Some path ->
  ToString (Argument acall 1) = Some content ->
  ToString (Argument rcall 0) = Some path ->
  files d !! path = None ->
  appendFile acall d = (TrueValue, d') ->
  readFile rcall d' = Text content.
Proof.
  intros Hpath Hcontent Hrpath Hmissing.
  rewrite (appendFile_eq acall path content d Hpath Hcontent).
  case_decide as Hbad; [done|]. intros [= <-].
  rewrite (readFile_eq rcall path _ Hrpath) by tauto. cbn.
  by rewrite lookup_insert_eq, Hmissing.
Qed.

(** appendFile on a path that holds a file puts the content given after
    what the file held: a readFile of the path then returns the two, one
    after the other. *)
Theorem appendFile_appends (acall rcall : FunctionCall) (path old content : string)
    (d d' : Disk) :
  ToString (Argument acall 0) = Some path ->
  ToString (Argument acall 1) = Some content ->
  ToString (Argument rcall 0) = Some path ->
  readFile rcall d = Text old ->
  appendFile acall d = (TrueValue, d') ->
  readFile rcall d' = Text (old +:+ content).
Proof.
  intros Hpath Hcontent Hrpath Hold.
  rewrite (appendFile_eq acall path content d Hpath Hcontent).
  case_decide as Hbad; [done|]. intros [= <-].
  rewrite (readFile_eq rcall path d Hrpath) in Hold by tauto.
  rewrite (readFile_eq rcall path _ Hrpath) by tauto. cbn.
  rewrite lookup_insert_eq.
  destruct (files d !! path) as [old'|]; [|done]. by injection Hold as ->.
Qed.

(** writeFile and appendFile succeed on the same calls, and a call that
    returns false leaves the disk as it was. *)
Theorem writeFile_appendFile_fail_alike (call : FunctionCall) (d : Disk) :
  ((writeFile call d).1 = TrueValue <-> (appendFile call d).1 = TrueValue) /\
  ((writeFile call d).1 <> TrueValue -> (writeFile call d).2 = d) /\
  ((appendFile call d).1 <> TrueValue -> (appendFile call d).2 = d).
Proof.
  destruct (ToString (Argument call 0)) as [path|] eqn:Hpath.
  2:{ unfold writeFile, appendFile. rewrite Hpath. cbn. by repeat split. }
  destruct (ToString (Argument call 1)) as [content|] eqn:Hcontent.
  2:{ unfold writeFile, appendFile. rewrite Hpath, Hcontent. cbn. by repeat split. }
  rewrite (writeFile_eq call path content d Hpath Hcontent).
  rewrite (appendFile_eq call path content d Hpath Hcontent).
  case_decide; cbn; by repeat split.
Qed.

(** writeFile and appendFile touch the file they name and no other: a
    readFile of another path returns the same before and after. *)
Theorem other_files_untouched (call rcall : FunctionCall) (path other : string)
    (d : Disk) :
  ToString (Argument call 0) = Some path ->
  ToString (Argument rcall 0) = Some other ->
  other <> path ->
  readFile rcall (writeFile call d).2 = readFile rcall d /\
  readFile rcall (appendFile call d).2 = readFile rcall d.
Proof.
  intros Hpath Hother Hne.
  destruct (ToString (Argument call 1)) as [content|] eqn:Hcontent.
  2:{ unfold writeFile, appendFile. rewrite Hpath, Hcontent. by cbn. }
  rewrite (writeFile_eq call path content d Hpath Hcontent).
  rewrite (appendFile_eq call path content d Hpath Hcontent).
  case_decide; [done|]. cbn.
  unfold readFile, ReadFile. rewrite Hother. cbn.
  case_decide; [done|]. cbn. by rewrite !lookup_insert_ne.
Qed.

(** writeFile replaces what a file held, appendFile adds to it: after
    writeFile of a, writeFile of b and appendFile of c on one path, a
    readFile returns b followed by c. *)
Theorem write_write_append_read (w1 w2 a r : FunctionCall) (path ca cb cc : string)
    (d d1 d2 d3 : Disk) :
  ToString (Argument w1 0) = Some path -> ToString (Argument w1 1) = Some ca ->
  ToString (Argument w2 0) = Some path -> ToString (Argument w2 1) = Some cb ->
  ToString (Argument a 0) = Some path -> ToString (Argument a 1) = Some cc ->
  ToString (Argument r 0) = Some path ->
  writeFile w1 d = (TrueValue, d1) ->
  writeFile w2 d1 = (TrueValue, d2) ->
  appendFile a d2 = (TrueValue, d3) ->
  readFile r d3 = Text (cb +:+ cc).
Proof.
  intros Hw1 Hw1c Hw2 Hw2c Ha Hac Hr.
  rewrite (writeFile_eq w1 path ca d Hw1 Hw1c).
  case_decide as Hbad; [done|]. intros [= <-].
  rewrite (writeFile_eq w2 path cb _ Hw2 Hw2c). cbn.
  rewrite decide_False by done. intros [= <-].
  rewrite (appendFile_eq a path cc _ Ha Hac). cbn.
  rewrite decide_False by done. intros [= <-].
  rewrite (readFile_eq r path _ Hr) by tauto. cbn.
  by rewrite lookup_insert_eq, lookup_insert_eq.
Qed.

(** Two appendFile calls in a row leave the disk that one appendFile of
    the two contents joined leaves. *)
Theorem appendFile_twice (a1 a2 a12 : FunctionCall) (path c1 c2 : string)
    (d d1 : Disk) :
  ToString (Argument a1 0) = Some path -> ToString (Argument a1 1) = Some c1 ->
  ToString (Argument a2 0) = Some path -> ToString (Argument a2 1) = Some c2 ->
  ToString (Argument a12 0) = Some path ->
  ToString (Argument a12 1) = Some (c1 +:+ c2) ->
  appendFile a1 d = (TrueValue, d1) ->
  appendFile a2 d1 = appendFile a12 d.
Proof.
  intros H1 H1c H2 H2c H12 H12c.
  rewrite (appendFile_eq a1 path c1 d H1 H1c).
  case_decide as Hbad; [done|]. intros [= <-].
  rewrite (appendFile_eq a2 path c2 _ H2 H2c).
  rewrite (appendFile_eq a12 path (c1 +:+ c2) d H12 H12c). cbn.
  rewrite !decide_False by done.
  rewrite lookup_insert_eq, insert_insert_eq. cbn.
  by rewrite append_assoc.
Qed.

End Files.

Lemma appendFile_creates_witness :
  readFile (vm := sample_vm) {| ArgumentList := [Text "/tmp/a"] |}
    {| files := {["/tmp/a" := "hello"]}; unwritable := ∅ |}
  = Text "hello".
Proof.
  apply (appendFile_creates (vm := sample_vm)
           {| ArgumentList := [Text "/tmp/a"; Text "hello"] |}
           {| ArgumentList := [Text "/tmp/a"] |}
           "/tmp/a" "hello" sample_disk); reflexivity.
Defined.

Lemma appendFile_appends_witness :
  readFile (vm := sample_vm) {| ArgumentList := [Text "/tmp/a"] |}
    {| files := {["/tmp/a" := "hello, world"]}; unwritable := ∅ |}
  = Text ("hello" +:+ ", world").
Proof.
  apply (appendFile_appends (vm := sample_vm)
           {| ArgumentList := [Text "/tmp/a"; Text ", world"] |}
           {| ArgumentList := [Text "/tmp/a"] |}
           "/tmp/a" "hello" ", world"
           {| files := {["/tmp/a" := "hello"]}; unwritable := ∅ |});
    reflexivity.
Defined.

Lemma writeFile_appendFile_fail_alike_witness :
  let call := {| ArgumentList := [Text "/etc"; Text "x"] |} in
  let d := {| files := ∅; unwritable := {["/etc"]} |} in
  ((writeFile (vm := sample_vm) call d).1 = TrueValue <->
   (appendFile (vm := sample_vm) call d).1 = TrueValue) /\
  ((writeFile (vm := sample_vm) call d).1 <> TrueValue ->
   (writeFile (vm := sample_vm) call d).2 = d) /\
  ((appendFile (vm := sample_vm) call d).1 <> TrueValue ->
   (appendFile (vm := sample_vm) call d).2 = d).
Proof.
  apply (writeFile_appendFile_fail_alike (vm := sample_vm)
           {| ArgumentList := [Text "/etc"; Text "x"] |}
           {| files := ∅; unwritable := {["/etc"]} |}).
Defined.

Lemma other_files_untouched_witness :
  let call := {| ArgumentList := [Text "/tmp/a"; Text "x"] |} in
  let rcall := {| ArgumentList := [Text "/tmp/b"] |} in
  let d := {| files := {["/tmp/b" := "keep"]}; unwritable := ∅ |} in
  readFile (vm := sample_vm) rcall (writeFile (vm := sample_vm) call d).2
    = readFile (vm := sample_vm) rcall d /\
  readFile (vm := sample_vm) rcall (appendFile (vm := sample_vm) call d).2
    = readFile (vm := sample_vm) rcall d.
Proof.
  apply (other_files_untouched (vm := sample_vm)
           {| ArgumentList := [Text "/tmp/a"; Text "x"] |}
           {| ArgumentList := [Text "/tmp/b"] |} "/tmp/a" "/tmp/b"
           {| files := {["/tmp/b" := "keep"]}; unwritable := ∅ |});
    [reflexivity | reflexivity | discriminate].
Defined.

Lemma write_write_append_read_witness :
  readFile (vm := sample_vm) {| ArgumentList := [Text "/tmp/a"] |}
    {| files := {["/tmp/a" := "bc"]}; unwritable := ∅ |}
  = Text ("b" +:+ "c").
Proof.
  apply (write_write_append_read (vm := sample_vm)
           {| ArgumentList := [Text "/tmp/a"; Text "a"] |}
           {| ArgumentList := [Text "/tmp/a"; Text "b"] |}
           {| ArgumentList := [Text "/tmp/a"; Text "c"] |}
           {| ArgumentList := [Text "/tmp/a"] |}
           "/tmp/a" "a" "b" "c" sample_disk
           {| files := {["/tmp/a" := "a"]}; unwritable := ∅ |}
           {| files := {["/tmp/a" := "b"]}; unwritable := ∅ |});
    reflexivity.
Defined.

Lemma appendFile_twice_witness :
  appendFile (vm := sample_vm) {| ArgumentList := [Text "/tmp/a"; Text "b"] |}
    {| files := {["/tmp/a" := "a"]}; unwritable := ∅ |}
  = appendFile (vm := sample_vm) {| ArgumentList := [Text "/tmp/a"; Text "ab"] |}
      sample_disk.
Proof.
  apply (appendFile_twice (vm := sample_vm)
           {| ArgumentList := [Text "/tmp/a"; Text "a"] |}
           {| ArgumentList := [Text "/tmp/a"; Text "b"] |}
           {| ArgumentList := [Text "/tmp/a"; Text "ab"] |}
           "/tmp/a" "a" "b" sample_disk); reflexivity.
Defined.
